(** * Torus Game of Life: the simulation core of [src/main.cpp]

    The development embeds the three global buffers of the program
    ([currentGen], [nextGen], [pixels]), the wrap helper [GetIndex], the
    generation step [UpdateGameOfLife] and the seeding loop of [main], and
    proves the properties of the step against that embedding.

    Conventions.
    - A C++ [int] is a [Z]; [%] on [int] truncates toward zero, so it is
      [Z.rem].  Lemma [int_range] bounds every intermediate value of the
      step, so no signed overflow arises for the grids considered.
    - A [Cell] ([uint8_t]) is a [Z]; a comparison stored in a cell is 0 or 1
      ([Z.b2z]); a cell used as a condition is true when it is nonzero.
    - [std::vector::operator[]] and C array indexing are unchecked: an access
      outside the buffer has no defined behaviour.  The embedding runs in the
      [option] monad and such an access yields [None].
    - The grid dimensions are compile-time constants of the source.  The
      definitions take them as section variables [W] and [H]; module [Src]
      instantiates them with the values of the source. *)

From stdpp Require Import base numbers option list list_numbers.

Local Open Scope Z_scope.

(** ** Data model *)

(** raylib's [Color]: four [unsigned char] components. *)
Record Color : Type := mkColor { r : Z; g : Z; b : Z; a : Z }.

#[global] Instance Color_eq_dec : EqDecision Color.
Proof. solve_decision. Defined.

(** The literal [(Color){ 0, 255, 200, 255 }] of lines 16, 57 and 70. *)
Definition CYAN : Color := mkColor 0 255 200 255.

(** The global buffers of lines 18-20. *)
Record Sim : Type := mkSim {
  currentGen : list Z;
  nextGen : list Z;
  pixels : list Color
}.

(** ** Unchecked indexing, with undefined accesses as [None] *)

Definition vec_get {A} (v : list A) (i : Z) : option A :=
  if 0 <=? i then v !! Z.to_nat i else None.

Definition vec_set {A} (v : list A) (i : Z) (x : A) : option (list A) :=
  if (0 <=? i) && (i <? Z.of_nat (length v))
  then Some (<[Z.to_nat i := x]> v) else None.

(** A cell (or any integer) used as a C++ condition. *)
Definition truthy (c : Z) : bool := negb (c =? 0).

(** ** [for (int i = lo; i < hi; i++) body] *)

Fixpoint for_loop {St} (n : nat) (i : Z) (body : Z → St → option St) (s : St)
  : option St :=
  match n with
  | O => Some s
  | S n' =>
      match body i s with
      | Some s' => for_loop n' (i + 1) body s'
      | None => None
      end
  end.

Definition for_range {St} (lo hi : Z) (body : Z → St → option St) (s : St)
  : option St :=
  for_loop (Z.to_nat (hi - lo)) lo body s.

Section Grid.

Variables W H : Z.

(** raylib's [BLACK] macro; its definition is in [raylib.h], outside the
    repository, so it is a parameter. *)
Variable BLACK : Color.

Definition GRID_SIZE : Z := W * H.

(** ** [GetIndex] (lines 23-29) *)

Definition GetIndex (x y : Z) : Z :=
  let x := if x <? 0 then W - 1 else if x >=? W then 0 else x in
  let y := if y <? 0 then H - 1 else if y >=? H then 0 else y in
  y * W + x.

(** ** [UpdateGameOfLife] (lines 31-61) *)

(** Lines 44-47: the eight reads, added up in source order. *)
Definition neighbors_of (cur : list Z)
    (y_offset y_up y_dn x x_left x_right : Z) : option Z :=
  n1 ← vec_get cur (y_up + x_left);
  n2 ← vec_get cur (y_up + x);
  n3 ← vec_get cur (y_up + x_right);
  n4 ← vec_get cur (y_offset + x_left);
  n5 ← vec_get cur (y_offset + x_right);
  n6 ← vec_get cur (y_dn + x_left);
  n7 ← vec_get cur (y_dn + x);
  n8 ← vec_get cur (y_dn + x_right);
  Some (n1 + n2 + n3 + n4 + n5 + n6 + n7 + n8).

(** The value of the local [neighbors] in the iteration for the cell
    [(x, y)], with the row and column offsets of lines 33-41. *)
Definition neighbors_at (cur : list Z) (x y : Z) : option Z :=
  neighbors_of cur (y * W) (Z.rem (y - 1 + H) H * W) (Z.rem (y + 1) H * W)
               x (Z.rem (x - 1 + W) W) (Z.rem (x + 1) W).

(** Lines 50-54: the value stored in [nextGen[idx]]. *)
Definition next_state (c neighbors : Z) : Z :=
  if truthy c
  then Z.b2z ((neighbors =? 2) || (neighbors =? 3))
  else Z.b2z (neighbors =? 3).

(** Lines 57 and 70: the colour chosen for a cell value. *)
Definition pixel_of (c : Z) : Color := if truthy c then CYAN else BLACK.

(** Lines 40-57: the body of the inner loop. *)
Definition cell_body (y_offset y_up y_dn : Z) (x : Z) (s : Sim)
  : option Sim :=
  let x_left := Z.rem (x - 1 + W) W in
  let x_right := Z.rem (x + 1) W in
  neighbors ← neighbors_of (currentGen s) y_offset y_up y_dn x x_left x_right;
  let idx := y_offset + x in
  c ← vec_get (currentGen s) idx;
  next' ← vec_set (nextGen s) idx (next_state c neighbors);
  v ← vec_get next' idx;
  pixels' ← vec_set (pixels s) idx (pixel_of v);
  Some (mkSim (currentGen s) next' pixels').

(** Lines 33-58: the body of the outer loop. *)
Definition row_body (y : Z) (s : Sim) : option Sim :=
  let y_offset := y * W in
  let y_up := Z.rem (y - 1 + H) H * W in
  let y_dn := Z.rem (y + 1) H * W in
  for_range 0 W (cell_body y_offset y_up y_dn) s.

(** Line 60 is a copy assignment: [currentGen] becomes a copy of
    [nextGen], which keeps its contents. *)
Definition UpdateGameOfLife (s : Sim) : option Sim :=
  s' ← for_range 0 H row_body s;
  Some (mkSim (nextGen s') (nextGen s') (pixels s')).

(** [n] consecutive calls, as the main loop issues them. *)
Fixpoint steps (n : nat) (s : Sim) : option Sim :=
  match n with
  | O => Some s
  | S n' => s' ← UpdateGameOfLife s; steps n' s'
  end.

(** ** Start-up: the globals and the seeding loop of [main] *)

(** Lines 18-20.  The vectors hold [GRID_SIZE] zeros; [pixels] has static
    storage and is zero-initialised.  A negative [GRID_SIZE] gives no
    buffers at all (the array bound is ill-formed and the vector
    constructor throws): [None].  Nothing else is checked: the source has
    no test on the dimensions and no error value.  [GRID_SIZE] is the
    product in [Z]; the [const int] of the source is that product when it
    is below [2 ^ 31], as it is for 100 by 100. *)
Definition globals : option Sim :=
  if GRID_SIZE <? 0 then None
  else
    let n := Z.to_nat GRID_SIZE in
    Some (mkSim (replicate n 0) (replicate n 0)
                (replicate n (mkColor 0 0 0 0))).

(** Lines 69-70.  [draw i] is the value [GetRandomValue(0, 100)] returns
    in iteration [i]. *)
Definition seed_body (draw : Z → Z) (i : Z) (s : Sim) : option Sim :=
  cur' ← vec_set (currentGen s) i (Z.b2z (draw i >? 85));
  c ← vec_get cur' i;
  pixels' ← vec_set (pixels s) i (pixel_of c);
  Some (mkSim cur' (nextGen s) pixels').

(** Lines 68-71. *)
Definition seed (draw : Z → Z) (s : Sim) : option Sim :=
  for_range 0 GRID_SIZE (seed_body draw) s.

(** The program up to the first frame: globals, then seeding. *)
Definition startup (draw : Z → Z) : option Sim :=
  s ← globals; seed draw s.

(** ** Row-major view of a grid and the torus neighbourhood *)

(** The value at row-major index [y * W + x]; 0 outside the buffer. *)
Definition at_xy (cells : list Z) (x y : Z) : Z :=
  default 0 (cells !! Z.to_nat (y * W + x)).

(** The read with wrapped coordinates: any integer pair names a cell. *)
Definition cell_at (cells : list Z) (x y : Z) : Z :=
  at_xy cells (x mod W) (y mod H).

(** The three wrapped columns combined with the three wrapped rows, in
    row-major order, without the fifth pair, which is the centre. *)
Definition neighbor_coords (x y : Z) : list (Z * Z) :=
  let xs := [(x - 1 + W) mod W; x; (x + 1) mod W] in
  let ys := [(y - 1 + H) mod H; y; (y + 1) mod H] in
  delete 4%nat (y' ← ys; x' ← xs; [(x', y')]).

Definition sumZ (l : list Z) : Z := foldr Z.add 0 l.

Definition live_neighbor_count (cells : list Z) (x y : Z) : Z :=
  sumZ ((λ p, at_xy cells p.1 p.2) <$> neighbor_coords x y).

(** The number of live cells, that is nonzero ones, at the eight wrapped
    neighbour coordinates of [(x, y)]. *)
Definition live_neighbors (cells : list Z) (x y : Z) : Z :=
  sumZ ((λ p, Z.b2z (truthy (at_xy cells p.1 p.2))) <$> neighbor_coords x y).

(** The next value of the cell with row-major index [i]. *)
Definition next_cell (cells : list Z) (i : Z) : Z :=
  next_state (default 0 (cells !! Z.to_nat i))
             (live_neighbor_count cells (i mod W) (i / W)).

(** One generation, as a function of the current cells alone. *)
Definition next_grid (cells : list Z) : list Z :=
  next_cell cells <$> seqZ 0 GRID_SIZE.

(** Cyclic translation by [(dx, dy)]: the cell at [(x, y)] of the result
    is the cell at [(x - dx, y - dy)] of the argument, wrapped. *)
Definition translate (dx dy : Z) (cells : list Z) : list Z :=
  (λ i, cell_at cells (i mod W - dx) (i / W - dy)) <$> seqZ 0 GRID_SIZE.

(** The grid whose live cells are exactly the listed coordinates. *)
Definition grid_of (live : list (Z * Z)) : list Z :=
  (λ i, Z.b2z (bool_decide ((i mod W, i / W) ∈ live))) <$> seqZ 0 GRID_SIZE.

Definition blinker_h (cx cy : Z) : list Z :=
  grid_of [(cx - 1, cy); (cx, cy); (cx + 1, cy)].

Definition blinker_v (cx cy : Z) : list Z :=
  grid_of [(cx, cy - 1); (cx, cy); (cx, cy + 1)].

(** *** Patterns given by offsets from a centre *)

(** Whether the offset [(u, v)] lies on the horizontal line of three
    cells around the origin. *)
Definition line3 (u v : Z) : bool := (v =? 0) && (-1 <=? u) && (u <=? 1).

(** The grid in which the cell [(x, y)] is alive iff [P (x - cx) (y - cy)]. *)
Definition pattern_grid (cx cy : Z) (P : Z → Z → bool) : list Z :=
  (λ i, Z.b2z (P (i mod W - cx) (i / W - cy))) <$> seqZ 0 GRID_SIZE.

(** The number of offsets adjacent to [(u, v)] that satisfy [P], in the
    order of [neighbor_coords]. *)
Definition ring_sum (P : Z → Z → bool) (u v : Z) : Z :=
  sumZ [Z.b2z (P (u - 1) (v - 1)); Z.b2z (P u (v - 1)); Z.b2z (P (u + 1) (v - 1));
        Z.b2z (P (u - 1) v); Z.b2z (P (u + 1) v);
        Z.b2z (P (u - 1) (v + 1)); Z.b2z (P u (v + 1)); Z.b2z (P (u + 1) (v + 1))].

(** A wrapped coordinate [z'] stands for the unwrapped [z] as far as a
    pattern of radius 1 around [c] can tell: they are equal, or both are
    at distance 2 or more from [c]. *)
Definition same_near (c z z' : Z) : Prop :=
  z' = z ∨ (¬ (-1 ≤ z - c ≤ 1) ∧ ¬ (-1 ≤ z' - c ≤ 1)).

(** A pattern that only depends on offsets within distance 1. *)
Definition radius1 (P : Z → Z → bool) : Prop :=
  ∀ u v u' v', same_near 0 u u' → same_near 0 v v' → P u' v' = P u v.

(** ** Well-formed states *)

(** All three buffers have [GRID_SIZE] entries. *)
Definition sized (s : Sim) : Prop :=
  length (currentGen s) = Z.to_nat GRID_SIZE ∧
  length (nextGen s) = Z.to_nat GRID_SIZE ∧
  length (pixels s) = Z.to_nat GRID_SIZE.

(** Every cell holds 0 or 1. *)
Definition binary (cells : list Z) : Prop :=
  Forall (λ c, c = 0 ∨ c = 1) cells.

(** Every row-major index the step uses for the cell [(x, y)], in source
    order: the eight neighbour reads, then [idx]. *)
Definition indices_used (x y : Z) : list Z :=
  let y_offset := y * W in
  let y_up := Z.rem (y - 1 + H) H * W in
  let y_dn := Z.rem (y + 1) H * W in
  let x_left := Z.rem (x - 1 + W) W in
  let x_right := Z.rem (x + 1) W in
  [y_up + x_left; y_up + x; y_up + x_right;
   y_offset + x_left; y_offset + x_right;
   y_dn + x_left; y_dn + x; y_dn + x_right;
   y_offset + x].

(** ** The state after a step, and the loop invariants *)

(** The state a step leaves, as a function of the current cells alone. *)
Definition after_step (cur : list Z) : Sim :=
  mkSim (next_grid cur) (next_grid cur) (pixel_of <$> next_grid cur).

(** Invariant of both loops of the step: [currentGen] is still [cur], the
    buffers keep their sizes, and the first [k] entries of [nextGen] and
    [pixels] hold the next generation and its colours. *)
Definition written (cur : list Z) (k : Z) (s : Sim) : Prop :=
  currentGen s = cur ∧
  length (nextGen s) = Z.to_nat GRID_SIZE ∧
  length (pixels s) = Z.to_nat GRID_SIZE ∧
  ∀ i, 0 ≤ i < k →
    nextGen s !! Z.to_nat i = Some (next_cell cur i) ∧
    pixels s !! Z.to_nat i = Some (pixel_of (next_cell cur i)).

(** The cells the seeding loop stores. *)
Definition seeded_cells (draw : Z → Z) : list Z :=
  (λ i, Z.b2z (draw i >? 85)) <$> seqZ 0 GRID_SIZE.

(** Invariant of the seeding loop. *)
Definition seeded (draw : Z → Z) (k : Z) (s : Sim) : Prop :=
  length (currentGen s) = Z.to_nat GRID_SIZE ∧
  nextGen s = replicate (Z.to_nat GRID_SIZE) 0 ∧
  length (pixels s) = Z.to_nat GRID_SIZE ∧
  ∀ i, 0 ≤ i < k →
    currentGen s !! Z.to_nat i = Some (Z.b2z (draw i >? 85)) ∧
    pixels s !! Z.to_nat i = Some (pixel_of (Z.b2z (draw i >? 85))).

(** The state start-up leaves, as a function of the draws. *)
Definition after_startup (draw : Z → Z) : Sim :=
  mkSim (seeded_cells draw) (replicate (Z.to_nat GRID_SIZE) 0)
        (pixel_of <$> seeded_cells draw).

(** The states of a run: the state start-up leaves, and every state a
    call of [UpdateGameOfLife] leaves from there on. *)
Inductive reachable : Sim → Prop :=
| reach_startup (draw : Z → Z) (s : Sim) :
    startup draw = Some s → reachable s
| reach_step (s s' : Sim) :
    reachable s → UpdateGameOfLife s = Some s' → reachable s'.

(** ** Statements about states *)

(** The modulo-based wrap of a coordinate pair, as a row-major index. *)
Definition wrap_index (x y : Z) : Z := (y + H) mod H * W + (x + W) mod W.

(** The colour buffer depicts the current generation: an entry is the
    foreground colour exactly for a live cell, and [BLACK] for a dead
    one. *)
Definition pixels_match (s : Sim) : Prop :=
  ∀ i, 0 ≤ i < W * H →
    ∃ c p, currentGen s !! Z.to_nat i = Some c ∧
           pixels s !! Z.to_nat i = Some p ∧
           (p = CYAN ↔ c ≠ 0) ∧ (c = 0 → p = BLACK).

(** Conway's rule at one cell: [c] the current value, [n] the neighbour
    count, [c'] the next value. *)
Definition conway (c n c' : Z) : Prop :=
  (c ≠ 0 → (c' ≠ 0 ↔ n = 2 ∨ n = 3)) ∧ (c = 0 → (c' ≠ 0 ↔ n = 3)).

(** ** The [int] values of one iteration *)

(** Every [int] the step computes in the iteration for the cell [(x, y)]:
    the loop counters, the operands of [%], the row offsets, the wrapped
    columns and the nine indices. *)
Definition int_values (x y : Z) : list Z :=
  [y; x; y * W; y - 1 + H; Z.rem (y - 1 + H) H; Z.rem (y - 1 + H) H * W;
   y + 1; Z.rem (y + 1) H; Z.rem (y + 1) H * W;
   x - 1 + W; Z.rem (x - 1 + W) W; x + 1; Z.rem (x + 1) W]
  ++ indices_used x y.

End Grid.

(** The range of a 32-bit [int]. *)
Definition in_int (z : Z) : Prop := - 2 ^ 31 ≤ z < 2 ^ 31.

(** ** The constants of the source *)

Module Src.

Definition GRID_WIDTH : Z := 100.
Definition GRID_HEIGHT : Z := 100.
Definition GRID_SIZE : Z := GRID_WIDTH * GRID_HEIGHT.

(** raylib.h defines [BLACK] as [CLITERAL(Color){ 0, 0, 0, 255 }]; the
    header is not part of the repository. *)
Definition BLACK : Color := mkColor 0 0 0 255.

Definition UpdateGameOfLife : Sim → option Sim :=
  UpdateGameOfLife GRID_WIDTH GRID_HEIGHT BLACK.

Definition startup : (Z → Z) → option Sim :=
  startup GRID_WIDTH GRID_HEIGHT BLACK.

End Src.

(** ** Small grids for running the definitions *)

Module Demo.

(** A 4 by 3 grid, row by row. *)
Definition cells : list Z :=
  [0; 1; 0; 0;
   0; 1; 1; 0;
   0; 0; 0; 1].

(** A state of that size whose [nextGen] and [pixels] hold leftovers. *)
Definition state : Sim :=
  mkSim cells (replicate 12 7) (replicate 12 (mkColor 1 2 3 4)).

(** The same current generation with other leftovers. *)
Definition state' : Sim :=
  mkSim cells (replicate 12 0) (replicate 12 (mkColor 0 0 0 0)).

(** Draws that seed every third cell alive. *)
Definition draw (i : Z) : Z := if i mod 3 =? 0 then 100 else 0.

(** A state whose current generation is [cells] moved one column right
    and two rows down. *)
Definition shifted : Sim :=
  mkSim (translate 4 3 1 2 cells) (replicate 12 0)
        (replicate 12 (mkColor 0 0 0 0)).

(** A 10 by 10 state with the horizontal blinker in the centre. *)
Definition blinker : Sim :=
  mkSim (blinker_h 10 10 5 5) (replicate 100 0)
        (replicate 100 (mkColor 0 0 0 0)).

End Demo.

(** ** Further grids, and mirror images *)

Section MoreGrids.

Variables W H : Z.

(** The grid in which every cell holds [c]. *)
Definition uniform_grid (c : Z) : list Z :=
  replicate (Z.to_nat (GRID_SIZE W H)) c.

(** The 2 by 2 block with lower corner [(cx, cy)], and a single cell. *)
Definition block_at (cx cy : Z) : list Z :=
  grid_of W H [(cx, cy); (cx + 1, cy); (cx, cy + 1); (cx + 1, cy + 1)].

Definition lone_at (cx cy : Z) : list Z := grid_of W H [(cx, cy)].

(** Left-right and top-bottom mirror images of a grid. *)
Definition mirror_x (cells : list Z) : list Z :=
  (λ i, at_xy W cells (W - 1 - i mod W) (i / W)) <$> seqZ 0 (GRID_SIZE W H).

Definition mirror_y (cells : list Z) : list Z :=
  (λ i, at_xy W cells (i mod W) (H - 1 - i / W)) <$> seqZ 0 (GRID_SIZE W H).

(** The nine calls of [GetIndex] for the cell [(x, y)] and its neighbours,
    in the order of [indices_used]. *)
Definition GetIndex_around (x y : Z) : list Z :=
  [GetIndex W H (x - 1) (y - 1); GetIndex W H x (y - 1);
   GetIndex W H (x + 1) (y - 1);
   GetIndex W H (x - 1) y; GetIndex W H (x + 1) y;
   GetIndex W H (x - 1) (y + 1); GetIndex W H x (y + 1);
   GetIndex W H (x + 1) (y + 1);
   GetIndex W H x y].

End MoreGrids.

(** Offsets of the 2 by 2 block, of a single cell, and of nothing. *)
Definition square (u v : Z) : bool :=
  (0 <=? u) && (u <=? 1) && (0 <=? v) && (v <=? 1).

Definition origin (u v : Z) : bool := (u =? 0) && (v =? 0).

Definition nowhere (u v : Z) : bool := false.

(** The range of a [uint8_t]. *)
Definition is_byte (c : Z) : Prop := 0 ≤ c ≤ 255.

(** ** More small states *)

Module Cases.

(** [Demo.cells] with the last column changed: the nine cells around
    [(1, 1)] are as before. *)
Definition far_change : Sim :=
  mkSim [0; 1; 0; 1;
         0; 1; 1; 1;
         0; 0; 0; 0] (replicate 12 0) (replicate 12 (mkColor 0 0 0 0)).

(** Bytes other than 0 and 1 in the current generation. *)
Definition bytes : Sim :=
  mkSim [0; 2; 255; 0;
         7; 1; 0; 0;
         0; 0; 3; 1] (replicate 12 9) (replicate 12 (mkColor 0 0 0 0)).

Definition uniform (c : Z) : Sim :=
  mkSim (uniform_grid 4 3 c) (replicate 12 5)
        (replicate 12 (mkColor 0 0 0 0)).

Definition mirrored_x : Sim :=
  mkSim (mirror_x 4 3 Demo.cells) (replicate 12 0)
        (replicate 12 (mkColor 0 0 0 0)).

Definition mirrored_y : Sim :=
  mkSim (mirror_y 4 3 Demo.cells) (replicate 12 0)
        (replicate 12 (mkColor 0 0 0 0)).

Definition block : Sim :=
  mkSim (block_at 10 10 4 4) (replicate 100 0)
        (replicate 100 (mkColor 0 0 0 0)).

Definition lone : Sim :=
  mkSim (lone_at 10 10 5 5) (replicate 100 0)
        (replicate 100 (mkColor 0 0 0 0)).

End Cases.

(** * Proofs *)

(** ** Indexing *)

Lemma vec_get_Some {A} (v : list A) (i : Z) :
  0 ≤ i < Z.of_nat (length v) → ∃ x, vec_get v i = Some x ∧ v !! Z.to_nat i = Some x.
Proof.
  intros Hi. unfold vec_get.
  destruct (Z.leb_spec 0 i); [|lia].
  destruct (lookup_lt_is_Some_2 v (Z.to_nat i)) as [x Hx]; [lia|].
  exists x. by rewrite Hx.
Qed.

Lemma vec_get_default (v : list Z) (i : Z) :
  0 ≤ i < Z.of_nat (length v) →
  vec_get v i = Some (default 0 (v !! Z.to_nat i)).
Proof.
  intros Hi. destruct (vec_get_Some v i Hi) as (x & -> & ->). done.
Qed.

Lemma vec_set_Some {A} (v : list A) (i : Z) (x : A) :
  0 ≤ i < Z.of_nat (length v) → vec_set v i x = Some (<[Z.to_nat i := x]> v).
Proof.
  intros Hi. unfold vec_set.
  destruct (Z.leb_spec 0 i); [|lia].
  destruct (Z.ltb_spec i (Z.of_nat (length v))); [done|lia].
Qed.

Lemma vec_get_insert {A} (v : list A) (i : Z) (x : A) :
  0 ≤ i < Z.of_nat (length v) → vec_get (<[Z.to_nat i := x]> v) i = Some x.
Proof.
  intros Hi. unfold vec_get.
  destruct (Z.leb_spec 0 i); [|lia].
  apply list_lookup_insert_eq. lia.
Qed.

(** ** The loop rule: an invariant indexed by the loop counter *)

Lemma for_loop_inv {St} (P : Z → St → Prop) (body : Z → St → option St) :
  ∀ (n : nat) (i : Z) (s : St),
    (∀ j t, i ≤ j < i + Z.of_nat n → P j t → ∃ t', body j t = Some t' ∧ P (j + 1) t') →
    P i s →
    ∃ s', for_loop n i body s = Some s' ∧ P (i + Z.of_nat n) s'.
Proof.
  induction n as [|n IH]; intros i s Hbody Hinit; simpl.
  - exists s. split; [done|]. by rewrite Z.add_0_r.
  - destruct (Hbody i s) as (t & -> & Ht); [lia|done|].
    destruct (IH (i + 1) t) as (s' & Hs' & HP).
    + intros j u Hj. apply Hbody. lia.
    + done.
    + exists s'. split; [done|].
      replace (i + Z.of_nat (S n)) with (i + 1 + Z.of_nat n) by lia. done.
Qed.

Lemma for_range_inv {St} (P : Z → St → Prop) (body : Z → St → option St)
    (lo hi : Z) (s : St) :
  lo ≤ hi →
  (∀ j t, lo ≤ j < hi → P j t → ∃ t', body j t = Some t' ∧ P (j + 1) t') →
  P lo s →
  ∃ s', for_range lo hi body s = Some s' ∧ P hi s'.
Proof.
  intros Hle Hbody Hinit. unfold for_range.
  destruct (for_loop_inv P body (Z.to_nat (hi - lo)) lo s) as (s' & Hs' & HP).
  - intros j t Hj. apply Hbody. lia.
  - done.
  - exists s'. split; [done|].
    replace (lo + Z.of_nat (Z.to_nat (hi - lo))) with hi in HP by lia. done.
Qed.

(** A loop whose bound is not above its start does nothing. *)
Lemma for_range_empty {St} (body : Z → St → option St) (lo hi : Z) (s : St) :
  hi ≤ lo → for_range lo hi body s = Some s.
Proof.
  intros Hle. unfold for_range.
  replace (Z.to_nat (hi - lo)) with 0%nat by lia. done.
Qed.

(** ** Modular arithmetic of shifted coordinates *)

Lemma mod_shift_pred (n x d : Z) :
  ((x - 1 + n) mod n - d) mod n = ((x - d) mod n - 1 + n) mod n.
Proof.
  rewrite Zminus_mod_idemp_l.
  replace ((x - d) mod n - 1 + n) with ((x - d) mod n + (n - 1)) by lia.
  rewrite Zplus_mod_idemp_l. f_equal. lia.
Qed.

Lemma mod_shift_succ (n x d : Z) :
  ((x + 1) mod n - d) mod n = ((x - d) mod n + 1) mod n.
Proof.
  rewrite Zminus_mod_idemp_l, Zplus_mod_idemp_l. f_equal. lia.
Qed.

Lemma wrap_coord (n z : Z) :
  0 < n → -1 ≤ z ≤ n →
  (z + n) mod n = (if z <? 0 then n - 1 else if z >=? n then 0 else z)
  ∧ Z.rem (z + n) n = (z + n) mod n.
Proof.
  intros Hn Hz. split; [|apply Z.rem_mod_nonneg; lia].
  rewrite Z.geb_leb.
  destruct (Z.ltb_spec z 0); [|destruct (Z.leb_spec n z)].
  - replace (z + n) with (n - 1) by lia. apply Z.mod_small. lia.
  - replace (z + n) with (0 + 2 * n) by lia. by rewrite Z.mod_add by lia.
  - replace (z + n) with (z + 1 * n) by lia.
    rewrite Z.mod_add by lia. apply Z.mod_small. lia.
Qed.

Section GridFacts.

Variables W H : Z.
Variable BLACK : Color.
Hypothesis W_pos : 0 < W.
Hypothesis H_pos : 0 < H.

(** ** Arithmetic of row-major indices *)

Lemma index_bound (x y : Z) :
  0 ≤ x < W → 0 ≤ y < H → 0 ≤ y * W + x < W * H.
Proof. intros Hx Hy. nia. Qed.

Lemma index_mod (x y : Z) : 0 ≤ x < W → (y * W + x) mod W = x.
Proof.
  intros Hx. rewrite Z.add_comm, Z.mod_add by lia. by apply Z.mod_small.
Qed.

Lemma index_div (x y : Z) : 0 ≤ x < W → (y * W + x) / W = y.
Proof.
  intros Hx. rewrite Z.add_comm, Z.div_add by lia.
  rewrite Z.div_small by done. lia.
Qed.

Lemma index_split (i : Z) :
  0 ≤ i < W * H →
  0 ≤ i mod W < W ∧ 0 ≤ i / W < H ∧ i = i / W * W + i mod W.
Proof.
  intros Hi. split; [apply Z.mod_pos_bound; lia|].
  split.
  - split; [apply Z.div_pos; lia|].
    apply Z.div_lt_upper_bound; lia.
  - pose proof (Z.div_mod i W). lia.
Qed.

(** On the operands the step uses, C++'s [%] is the mathematical [mod]. *)
Lemma rem_left (x : Z) : 0 ≤ x < W → Z.rem (x - 1 + W) W = (x - 1 + W) mod W.
Proof. intros Hx. apply Z.rem_mod_nonneg; lia. Qed.

Lemma rem_right (x : Z) : 0 ≤ x < W → Z.rem (x + 1) W = (x + 1) mod W.
Proof. intros Hx. apply Z.rem_mod_nonneg; lia. Qed.

Lemma rem_up (y : Z) : 0 ≤ y < H → Z.rem (y - 1 + H) H = (y - 1 + H) mod H.
Proof. intros Hy. apply Z.rem_mod_nonneg; lia. Qed.

Lemma rem_down (y : Z) : 0 ≤ y < H → Z.rem (y + 1) H = (y + 1) mod H.
Proof. intros Hy. apply Z.rem_mod_nonneg; lia. Qed.

Lemma wrap_bound_x (z : Z) : 0 ≤ z mod W < W.
Proof. apply Z.mod_pos_bound. lia. Qed.

Lemma wrap_bound_y (z : Z) : 0 ≤ z mod H < H.
Proof. apply Z.mod_pos_bound. lia. Qed.

(** ** Reads of the current generation *)

Lemma read_cell (cur : list Z) (x y : Z) :
  length cur = Z.to_nat (GRID_SIZE W H) → 0 ≤ x < W → 0 ≤ y < H →
  vec_get cur (y * W + x) = Some (at_xy W cur x y).
Proof.
  intros Hlen Hx Hy. unfold at_xy. apply vec_get_default.
  pose proof (index_bound x y Hx Hy). unfold GRID_SIZE in Hlen. lia.
Qed.

(** The sum of lines 44-47 is the sum over the wrapped neighbourhood. *)
Lemma neighbors_of_count (cur : list Z) (x y : Z) :
  length cur = Z.to_nat (GRID_SIZE W H) → 0 ≤ x < W → 0 ≤ y < H →
  neighbors_of cur (y * W) (Z.rem (y - 1 + H) H * W) (Z.rem (y + 1) H * W)
               x (Z.rem (x - 1 + W) W) (Z.rem (x + 1) W)
  = Some (live_neighbor_count W H cur x y).
Proof.
  intros Hlen Hx Hy.
  rewrite rem_left, rem_right, rem_up, rem_down by done.
  pose proof (wrap_bound_x (x - 1 + W)). pose proof (wrap_bound_x (x + 1)).
  pose proof (wrap_bound_y (y - 1 + H)). pose proof (wrap_bound_y (y + 1)).
  unfold neighbors_of.
  rewrite !read_cell by done. simpl.
  f_equal. unfold live_neighbor_count, neighbor_coords, sumZ. simpl. lia.
Qed.

(** ** The loops of [UpdateGameOfLife] *)

Lemma cell_body_written (cur : list Z) (x y : Z) (s : Sim) :
  length cur = Z.to_nat (GRID_SIZE W H) → 0 ≤ x < W → 0 ≤ y < H →
  written W H BLACK cur (y * W + x) s →
  ∃ s', cell_body W BLACK (y * W) (Z.rem (y - 1 + H) H * W)
                  (Z.rem (y + 1) H * W) x s = Some s'
        ∧ written W H BLACK cur (y * W + x + 1) s'.
Proof.
  intros Hlen Hx Hy (Hcur & Hn & Hp & Hw).
  pose proof (index_bound x y Hx Hy) as Hidx.
  unfold GRID_SIZE in *.
  unfold cell_body. rewrite Hcur.
  rewrite neighbors_of_count by done. simpl.
  rewrite read_cell by done. simpl.
  rewrite vec_set_Some by lia. simpl.
  rewrite vec_get_insert by lia. simpl.
  rewrite vec_set_Some by lia. simpl.
  eexists. split; [done|].
  assert (Hnew : next_state (at_xy W cur x y) (live_neighbor_count W H cur x y)
                 = next_cell W H cur (y * W + x)).
  { unfold next_cell. by rewrite index_mod, index_div. }
  rewrite Hnew. unfold written, GRID_SIZE. simpl.
  split; [done|]. split; [by rewrite length_insert|].
  split; [by rewrite length_insert|].
  intros i Hi. destruct (decide (i = y * W + x)) as [->|Hne].
  - rewrite !list_lookup_insert_eq by lia. done.
  - rewrite !list_lookup_insert_ne by lia. apply Hw. lia.
Qed.

Lemma row_body_written (cur : list Z) (y : Z) (s : Sim) :
  length cur = Z.to_nat (GRID_SIZE W H) → 0 ≤ y < H →
  written W H BLACK cur (y * W) s →
  ∃ s', row_body W H BLACK y s = Some s'
        ∧ written W H BLACK cur ((y + 1) * W) s'.
Proof.
  intros Hlen Hy Hinv. unfold row_body.
  destruct (for_range_inv (λ x t, written W H BLACK cur (y * W + x) t)
              (cell_body W BLACK (y * W) (Z.rem (y - 1 + H) H * W)
                         (Z.rem (y + 1) H * W)) 0 W s)
    as (s' & Hs' & Hw); [lia| |by rewrite Z.add_0_r|].
  - intros x t Hx Ht. rewrite Z.add_assoc. by apply cell_body_written.
  - exists s'. split; [done|].
    by replace ((y + 1) * W) with (y * W + W) by lia.
Qed.

Lemma rows_written (s : Sim) :
  sized W H s →
  ∃ s', for_range 0 H (row_body W H BLACK) s = Some s'
        ∧ written W H BLACK (currentGen s) (W * H) s'.
Proof.
  intros (Hc & Hn & Hp).
  destruct (for_range_inv (λ y t, written W H BLACK (currentGen s) (y * W) t)
              (row_body W H BLACK) 0 H s)
    as (s' & Hs' & Hw); [lia| | |].
  - intros y t Hy Ht. by apply row_body_written.
  - split; [done|]. split; [done|]. split; [done|]. intros i Hi. lia.
  - exists s'. split; [done|]. by rewrite Z.mul_comm.
Qed.

(** A list of [W * H] entries is determined by its lookups below [W * H]. *)
Lemma tabulate_eq {A} (f : Z → A) (l : list A) :
  length l = Z.to_nat (GRID_SIZE W H) →
  (∀ i, 0 ≤ i < W * H → l !! Z.to_nat i = Some (f i)) →
  l = f <$> seqZ 0 (GRID_SIZE W H).
Proof.
  intros Hlen Hl. apply (list_eq_same_length _ _ (Z.to_nat (GRID_SIZE W H))); [|done|].
  - by rewrite length_fmap, length_seqZ.
  - intros i x y Hi Hx Hy.
    rewrite list_lookup_fmap, lookup_seqZ_lt in Hy by lia. simpl in Hy.
    unfold GRID_SIZE in Hi. rewrite Z.add_0_l in Hy.
    specialize (Hl (Z.of_nat i)). rewrite Nat2Z.id in Hl.
    rewrite Hl in Hx by lia. congruence.
Qed.

(** The step, on a state whose buffers have [W * H] entries, returns, and
    what it returns depends on the current cells only. *)
Lemma UpdateGameOfLife_after_step (s : Sim) :
  sized W H s →
  UpdateGameOfLife W H BLACK s = Some (after_step W H BLACK (currentGen s)).
Proof.
  intros Hs. destruct (rows_written s Hs) as (s' & Hs' & _ & Hn & Hp & Hw).
  unfold UpdateGameOfLife. rewrite Hs'. simpl. unfold after_step.
  assert (Hnext : nextGen s' = next_grid W H (currentGen s)).
  { apply tabulate_eq; [done|]. intros i Hi. by apply Hw. }
  assert (Hpix : pixels s' = pixel_of BLACK <$> next_grid W H (currentGen s)).
  { unfold next_grid. rewrite <- list_fmap_compose.
    apply (tabulate_eq (pixel_of BLACK ∘ next_cell W H (currentGen s)));
      [done|].
    intros i Hi. by apply Hw. }
  by rewrite Hnext, Hpix.
Qed.

(** ** Lookups in the state after a step *)

Lemma length_next_grid (cur : list Z) :
  length (next_grid W H cur) = Z.to_nat (GRID_SIZE W H).
Proof. unfold next_grid. by rewrite length_fmap, length_seqZ. Qed.

Lemma lookup_tabulate {A} (f : Z → A) (i : Z) :
  0 ≤ i < W * H → (f <$> seqZ 0 (GRID_SIZE W H)) !! Z.to_nat i = Some (f i).
Proof.
  intros Hi. unfold GRID_SIZE.
  rewrite list_lookup_fmap, lookup_seqZ_lt by lia. simpl. f_equal. f_equal. lia.
Qed.

Lemma lookup_next_grid (cur : list Z) (i : Z) :
  0 ≤ i < W * H →
  next_grid W H cur !! Z.to_nat i = Some (next_cell W H cur i).
Proof. apply lookup_tabulate. Qed.

Lemma at_xy_tabulate (f : Z → Z) (x y : Z) :
  0 ≤ x < W → 0 ≤ y < H → at_xy W (f <$> seqZ 0 (GRID_SIZE W H)) x y = f (y * W + x).
Proof.
  intros Hx Hy. unfold at_xy.
  by rewrite lookup_tabulate by (by apply index_bound).
Qed.

Lemma at_xy_next_grid (cur : list Z) (x y : Z) :
  0 ≤ x < W → 0 ≤ y < H →
  at_xy W (next_grid W H cur) x y
  = next_state (at_xy W cur x y) (live_neighbor_count W H cur x y).
Proof.
  intros Hx Hy. unfold next_grid. rewrite at_xy_tabulate by done.
  unfold next_cell. by rewrite index_mod, index_div.
Qed.

Lemma sized_after_step (cur : list Z) : sized W H (after_step W H BLACK cur).
Proof.
  unfold sized, after_step. simpl.
  by rewrite length_fmap, !length_next_grid.
Qed.

Lemma next_state_binary (c n : Z) : next_state c n = 0 ∨ next_state c n = 1.
Proof.
  unfold next_state.
  destruct (truthy c); destruct (_ || _) || destruct (_ =? _); simpl; auto.
Qed.

Lemma next_state_conway (c n : Z) : conway c n (next_state c n).
Proof.
  unfold conway, next_state, truthy.
  destruct (Z.eqb_spec c 0), (Z.eqb_spec n 2), (Z.eqb_spec n 3);
    simpl; split; intros; try split; intros; lia.
Qed.

Lemma binary_next_grid (cur : list Z) : binary (next_grid W H cur).
Proof.
  unfold binary, next_grid. apply Forall_fmap, Forall_forall.
  intros i _. apply next_state_binary.
Qed.

(** ** Start-up *)

Lemma seed_body_seeded (draw : Z → Z) (i : Z) (s : Sim) :
  0 ≤ i < W * H → seeded W H BLACK draw i s →
  ∃ s', seed_body BLACK draw i s = Some s' ∧ seeded W H BLACK draw (i + 1) s'.
Proof.
  intros Hi (Hc & Hn & Hp & Hw). unfold GRID_SIZE in *.
  unfold seed_body.
  rewrite vec_set_Some by lia. simpl.
  rewrite vec_get_insert by lia. simpl.
  rewrite vec_set_Some by lia. simpl.
  eexists. split; [done|]. unfold seeded, GRID_SIZE. simpl.
  split; [by rewrite length_insert|]. split; [done|].
  split; [by rewrite length_insert|].
  intros j Hj. destruct (decide (j = i)) as [->|Hne].
  - rewrite !list_lookup_insert_eq by lia. done.
  - rewrite !list_lookup_insert_ne by lia. apply Hw. lia.
Qed.

Lemma startup_after_startup (draw : Z → Z) :
  startup W H BLACK draw = Some (after_startup W H BLACK draw).
Proof.
  unfold startup, globals, GRID_SIZE.
  destruct (Z.ltb_spec (W * H) 0); [nia|]. simpl.
  destruct (for_range_inv (seeded W H BLACK draw) (seed_body BLACK draw)
              0 (W * H)
              (mkSim (replicate (Z.to_nat (W * H)) 0)
                     (replicate (Z.to_nat (W * H)) 0)
                     (replicate (Z.to_nat (W * H)) (mkColor 0 0 0 0))))
    as (s' & Hs' & Hc & Hn & Hp & Hw); [lia| | |].
  - intros i t Hi Ht. by apply seed_body_seeded.
  - unfold seeded, GRID_SIZE. simpl. rewrite !length_replicate.
    split; [done|]. split; [done|]. split; [done|]. intros i Hi. lia.
  - unfold seed, GRID_SIZE. rewrite Hs'. f_equal.
    destruct s' as [c n p]. simpl in *. unfold after_startup. f_equal.
    + apply tabulate_eq; [done|]. intros i Hi. by apply Hw.
    + done.
    + unfold seeded_cells. rewrite <- list_fmap_compose.
      apply (tabulate_eq (pixel_of BLACK ∘ (λ i, Z.b2z (draw i >? 85))));
        [done|].
      intros i Hi. by apply Hw.
Qed.

Lemma sized_after_startup (draw : Z → Z) :
  sized W H (after_startup W H BLACK draw).
Proof.
  unfold sized, after_startup, seeded_cells. simpl.
  by rewrite !length_fmap, length_seqZ, length_replicate.
Qed.

Lemma binary_seeded_cells (draw : Z → Z) : binary (seeded_cells W H draw).
Proof.
  unfold binary, seeded_cells. apply Forall_fmap, Forall_forall.
  intros i _. simpl. destruct (draw i >? 85); auto.
Qed.

(** Every state of a run has buffers of [W * H] entries and cells that are
    0 or 1. *)
Lemma reachable_sized_binary (s : Sim) :
  reachable W H BLACK s → sized W H s ∧ binary (currentGen s).
Proof.
  induction 1 as [draw s Hs | s s' _ [IHs _] Hstep].
  - rewrite startup_after_startup in Hs. injection Hs as <-.
    split; [apply sized_after_startup | apply binary_seeded_cells].
  - rewrite UpdateGameOfLife_after_step in Hstep by done.
    injection Hstep as <-.
    split; [apply sized_after_step | apply binary_next_grid].
Qed.

(** ** Statements about the step *)

(** On a grid of zeros and ones the sum over the wrapped neighbourhood is
    the number of live neighbours. *)
Lemma binary_sum_is_count (cells : list Z) (x y : Z) :
  binary cells →
  live_neighbor_count W H cells x y = live_neighbors W H cells x y.
Proof.
  intros Hbin. unfold live_neighbor_count, live_neighbors. f_equal.
  apply Forall_fmap_ext, Forall_forall. intros [x' y'] _. simpl.
  unfold at_xy.
  destruct (cells !! Z.to_nat (y' * W + x')) as [c|] eqn:Hc; simpl; [|done].
  unfold binary in Hbin. rewrite Forall_lookup in Hbin.
  by destruct (Hbin _ _ Hc) as [-> | ->].
Qed.

(** C1.  On a state whose buffers have [W * H] entries the step returns,
    and for every index [i], with [c] the current cell, [c'] the cell of
    the next generation and [n] the sum of the current cells at the eight
    wrapped neighbour coordinates of the cell, which is the number of live
    neighbours when the cells are zeros and ones, as they are throughout a
    run: the step computes [n] in [neighbors]; if [c] is nonzero then [c']
    is nonzero iff [n] is 2 or 3, and if [c] is zero then [c'] is nonzero
    iff [n] is 3. *)
Theorem step_applies_conway_rule (s : Sim) :
  sized W H s →
  ∃ s', UpdateGameOfLife W H BLACK s = Some s' ∧
    ∀ i, 0 ≤ i < W * H →
      let n := live_neighbor_count W H (currentGen s) (i mod W) (i / W) in
      ∃ c c',
        currentGen s !! Z.to_nat i = Some c ∧
        neighbors_at W H (currentGen s) (i mod W) (i / W) = Some n ∧
        (binary (currentGen s) →
         n = live_neighbors W H (currentGen s) (i mod W) (i / W)) ∧
        currentGen s' !! Z.to_nat i = Some c' ∧
        conway c n c'.
Proof.
  intros Hs. eexists. split; [by apply UpdateGameOfLife_after_step|].
  intros i Hi. destruct (index_split i Hi) as (Hx & Hy & Hsplit).
  destruct Hs as (Hc & _).
  assert (Hlook : currentGen s !! Z.to_nat i
                  = Some (at_xy W (currentGen s) (i mod W) (i / W))).
  { unfold at_xy. rewrite <- Hsplit.
    destruct (vec_get_Some (currentGen s) i) as (c & _ & ->); [|done].
    unfold GRID_SIZE in Hc. lia. }
  exists (at_xy W (currentGen s) (i mod W) (i / W)),
         (next_cell W H (currentGen s) i).
  split; [done|]. split; [by apply neighbors_of_count|].
  split; [apply binary_sum_is_count|].
  split; [by apply lookup_next_grid|].
  unfold next_cell. rewrite Hlook. simpl. apply next_state_conway.
Qed.


(** ** Colours *)

Lemma pixel_of_match (c : Z) :
  BLACK ≠ CYAN →
  (pixel_of BLACK c = CYAN ↔ c ≠ 0) ∧ (c = 0 → pixel_of BLACK c = BLACK).
Proof.
  intros Hne. unfold pixel_of, truthy.
  destruct (Z.eqb_spec c 0); simpl; split; try split; try done.
Qed.

Lemma pixels_match_fmap (cells next : list Z) :
  BLACK ≠ CYAN → length cells = Z.to_nat (GRID_SIZE W H) →
  pixels_match W H BLACK (mkSim cells next (pixel_of BLACK <$> cells)).
Proof.
  intros Hne Hlen i Hi. simpl. unfold GRID_SIZE in Hlen.
  destruct (lookup_lt_is_Some_2 cells (Z.to_nat i)) as [c Hc]; [lia|].
  exists c, (pixel_of BLACK c).
  split; [done|]. split; [by rewrite list_lookup_fmap, Hc|].
  by apply pixel_of_match.
Qed.

(** C3.  With [BLACK] different from the foreground colour: a step on a
    state whose buffers have [W * H] entries returns a state in which, at
    every index below [W * H], the colour is the foreground colour iff the
    current cell is nonzero, and is [BLACK] when the cell is zero; and the
    state start-up leaves, before any step, has the same property. *)
Theorem pixels_depict_current_generation :
  BLACK ≠ CYAN →
  (∀ s, sized W H s →
     ∃ s', UpdateGameOfLife W H BLACK s = Some s' ∧ pixels_match W H BLACK s')
  ∧ (∀ draw,
       ∃ s0, startup W H BLACK draw = Some s0 ∧ pixels_match W H BLACK s0).
Proof.
  intros Hne. split.
  - intros s Hs. eexists. split; [by apply UpdateGameOfLife_after_step|].
    apply pixels_match_fmap; [done|apply length_next_grid].
  - intros draw. eexists. split; [apply startup_after_startup|].
    apply pixels_match_fmap; [done|]. apply sized_after_startup.
Qed.

(** ** Sequences of steps *)

Lemma steps_sized (n : nat) (s : Sim) :
  sized W H s → ∃ s', steps W H BLACK n s = Some s' ∧ sized W H s'.
Proof.
  revert s. induction n as [|n IH]; intros s Hs; simpl.
  - by exists s.
  - rewrite UpdateGameOfLife_after_step by done. simpl.
    apply IH, sized_after_step.
Qed.

(** C4.  Two states whose buffers have [W * H] entries and whose current
    generations are equal give the same result of one step, whatever their
    [nextGen] and [pixels] held; and every sequence of one or more steps
    returns the same state, all three buffers included, from both.  The
    step takes no draw: only start-up does. *)
Theorem step_deterministic (s1 s2 : Sim) :
  sized W H s1 → sized W H s2 → currentGen s1 = currentGen s2 →
  UpdateGameOfLife W H BLACK s1 = UpdateGameOfLife W H BLACK s2
  ∧ ∀ n, ∃ t, steps W H BLACK (S n) s1 = Some t
              ∧ steps W H BLACK (S n) s2 = Some t.
Proof.
  intros H1 H2 Heq.
  assert (Hstep : UpdateGameOfLife W H BLACK s1
                  = UpdateGameOfLife W H BLACK s2).
  { rewrite !UpdateGameOfLife_after_step by done. by rewrite Heq. }
  split; [done|]. intros n. simpl. rewrite <- Hstep.
  rewrite UpdateGameOfLife_after_step by done. simpl.
  destruct (steps_sized n (after_step W H BLACK (currentGen s1)))
    as (t & Ht & _); [apply sized_after_step|].
  by exists t.
Qed.

(** C6.  From a state whose three buffers have [W * H] entries, any number
    of steps returns a state whose three buffers have [W * H] entries; the
    state start-up leaves is such a state.  [W] and [H] are constants, not
    part of the state. *)
Theorem buffer_sizes_preserved :
  (∀ draw, ∃ s0, startup W H BLACK draw = Some s0 ∧ sized W H s0)
  ∧ ∀ (n : nat) (s : Sim),
      sized W H s →
      ∃ s', steps W H BLACK n s = Some s' ∧
            length (currentGen s') = Z.to_nat (W * H) ∧
            length (nextGen s') = Z.to_nat (W * H) ∧
            length (pixels s') = Z.to_nat (W * H).
Proof.
  split.
  - intros draw. eexists. split; [apply startup_after_startup|].
    apply sized_after_startup.
  - intros n s Hs. destruct (steps_sized n s Hs) as (s' & Hs' & Hsz).
    by exists s'.
Qed.

(** ** Translation on the torus *)

Lemma at_xy_translate (dx dy : Z) (cells : list Z) (x y : Z) :
  0 ≤ x < W → 0 ≤ y < H →
  at_xy W (translate W H dx dy cells) x y = cell_at W H cells (x - dx) (y - dy).
Proof.
  intros Hx Hy. unfold translate. rewrite at_xy_tabulate by done.
  by rewrite index_mod, index_div.
Qed.

Lemma live_neighbor_count_translate (dx dy : Z) (cells : list Z) (x y : Z) :
  0 ≤ x < W → 0 ≤ y < H →
  live_neighbor_count W H (translate W H dx dy cells) x y
  = live_neighbor_count W H cells ((x - dx) mod W) ((y - dy) mod H).
Proof.
  intros Hx Hy.
  pose proof (wrap_bound_x (x - 1 + W)). pose proof (wrap_bound_x (x + 1)).
  pose proof (wrap_bound_y (y - 1 + H)). pose proof (wrap_bound_y (y + 1)).
  unfold live_neighbor_count, neighbor_coords. simpl.
  rewrite !at_xy_translate by done. unfold cell_at.
  rewrite !(mod_shift_pred W), !(mod_shift_succ W),
          !(mod_shift_pred H), !(mod_shift_succ H) by done.
  done.
Qed.

Lemma next_grid_translate (dx dy : Z) (cells : list Z) :
  next_grid W H (translate W H dx dy cells)
  = translate W H dx dy (next_grid W H cells).
Proof.
  unfold next_grid at 1. unfold translate at 2.
  apply Forall_fmap_ext, Forall_seqZ. intros i Hi. unfold GRID_SIZE in Hi.
  destruct (index_split i) as (Hx & Hy & Hsplit); [lia|].
  unfold next_cell.
  rewrite live_neighbor_count_translate by done.
  unfold translate. rewrite lookup_tabulate by lia. simpl.
  unfold cell_at. rewrite at_xy_next_grid; [done| |].
  - apply wrap_bound_x.
  - apply wrap_bound_y.
Qed.

(** C5.  Let [s] and [st] be states whose buffers have [W * H] entries,
    the current generation of [st] being that of [s] translated cyclically
    by [(dx, dy)].  Then both steps return, and the generation after the
    step from [st] is the translation by [(dx, dy)] of the generation after
    the step from [s].  Moreover the value of [neighbors] the step computes
    at a cell [(x, y)] of the translated grid is the one it computes, on the
    original grid, at the cell [((x - dx) mod W, (y - dy) mod H)]: an edge
    or corner cell counts as the cell it is the image of. *)
Theorem step_commutes_with_translation (dx dy : Z) (s st : Sim) :
  sized W H s → sized W H st →
  currentGen st = translate W H dx dy (currentGen s) →
  (∃ s' st',
     UpdateGameOfLife W H BLACK s = Some s' ∧
     UpdateGameOfLife W H BLACK st = Some st' ∧
     currentGen st' = translate W H dx dy (currentGen s'))
  ∧ ∀ x y, 0 ≤ x < W → 0 ≤ y < H →
      is_Some (neighbors_at W H (currentGen st) x y) ∧
      neighbors_at W H (currentGen st) x y
      = neighbors_at W H (currentGen s) ((x - dx) mod W) ((y - dy) mod H).
Proof.
  intros Hs Hst Heq. split.
  - do 2 eexists.
    split; [by apply UpdateGameOfLife_after_step|].
    split; [by apply UpdateGameOfLife_after_step|].
    simpl. rewrite Heq. apply next_grid_translate.
  - intros x y Hx Hy. destruct Hs as (Hc & _), Hst as (Hct & _).
    unfold neighbors_at.
    rewrite (neighbors_of_count (currentGen st)) by done.
    rewrite (neighbors_of_count (currentGen s));
      [|done|apply wrap_bound_x|apply wrap_bound_y].
    split; [by eexists|].
    rewrite Heq. by rewrite live_neighbor_count_translate.
Qed.

End GridFacts.

(** ** The blinker *)

Lemma line3_radius1 : radius1 line3.
Proof.
  intros u v u' v' Hu Hv. unfold same_near in *. unfold line3.
  destruct (Z.eqb_spec v' 0), (Z.eqb_spec v 0),
           (Z.leb_spec (-1) u'), (Z.leb_spec (-1) u),
           (Z.leb_spec u' 1), (Z.leb_spec u 1); simpl; try done; lia.
Qed.

Lemma flip_radius1 (P : Z → Z → bool) : radius1 P → radius1 (flip P).
Proof. intros HP u v u' v' Hu Hv. unfold flip. by apply HP. Qed.

Lemma line3_far (u v : Z) : u < -1 ∨ 1 < u ∨ v ≠ 0 → line3 u v = false.
Proof.
  intros Hfar. unfold line3.
  destruct (Z.eqb_spec v 0), (Z.leb_spec (-1) u), (Z.leb_spec u 1);
    simpl; try done; lia.
Qed.

(** The rule turns the horizontal line into the vertical one, offset by
    offset. *)
Lemma line3_rule (u v : Z) :
  next_state (Z.b2z (line3 u v)) (ring_sum line3 u v) = Z.b2z (flip line3 u v).
Proof.
  unfold ring_sum, flip.
  assert (Hv : v ≤ -3 ∨ 3 ≤ v ∨ v = -2 ∨ v = -1 ∨ v = 0 ∨ v = 1 ∨ v = 2) by lia.
  assert (Hu : u ≤ -3 ∨ 3 ≤ u ∨ u = -2 ∨ u = -1 ∨ u = 0 ∨ u = 1 ∨ u = 2) by lia.
  destruct Hv as [Hv|[Hv|Hv]].
  1, 2: rewrite !line3_far by lia; reflexivity.
  destruct Hu as [Hu|[Hu|Hu]].
  1, 2: rewrite !line3_far by lia; reflexivity.
  destruct Hv as [->|[->|[->|[->| ->]]]];
    destruct Hu as [->|[->|[->|[->| ->]]]]; reflexivity.
Qed.

Lemma ring_sum_flip (P : Z → Z → bool) (u v : Z) :
  ring_sum (flip P) u v = ring_sum P v u.
Proof. unfold ring_sum, flip, sumZ. simpl. lia. Qed.

(** And the vertical line back into the horizontal one. *)
Lemma flip_line3_rule (u v : Z) :
  next_state (Z.b2z (flip line3 u v)) (ring_sum (flip line3) u v)
  = Z.b2z (line3 u v).
Proof. rewrite ring_sum_flip. unfold flip at 1. apply (line3_rule v u). Qed.

Section Patterns.

Variables W H : Z.
Hypothesis W_pos : 0 < W.
Hypothesis H_pos : 0 < H.
Variables cx cy : Z.
Hypothesis cx_inner : 2 ≤ cx ≤ W - 3.
Hypothesis cy_inner : 2 ≤ cy ≤ H - 3.

Lemma wrap_pred (n z : Z) :
  0 < n → 0 ≤ z < n →
  (z - 1 + n) mod n = z - 1 ∨ (z = 0 ∧ (z - 1 + n) mod n = n - 1).
Proof.
  intros Hn Hz. destruct (wrap_coord n (z - 1)) as [-> _]; [lia..|].
  rewrite Z.geb_leb.
  destruct (Z.ltb_spec (z - 1) 0), (Z.leb_spec n (z - 1)); lia.
Qed.

Lemma wrap_succ (n z : Z) :
  0 < n → 0 ≤ z < n →
  (z + 1) mod n = z + 1 ∨ (z = n - 1 ∧ (z + 1) mod n = 0).
Proof.
  intros Hn Hz. rewrite <- (Z.mod_add (z + 1) 1 n) by lia.
  rewrite Z.mul_1_l. destruct (wrap_coord n (z + 1)) as [-> _]; [lia..|].
  rewrite Z.geb_leb.
  destruct (Z.ltb_spec (z + 1) 0), (Z.leb_spec n (z + 1)); lia.
Qed.

Lemma at_xy_pattern_grid (P : Z → Z → bool) (x y : Z) :
  0 ≤ x < W → 0 ≤ y < H →
  at_xy W (pattern_grid W H cx cy P) x y = Z.b2z (P (x - cx) (y - cy)).
Proof.
  intros Hx Hy. unfold pattern_grid. rewrite at_xy_tabulate by done.
  by rewrite index_mod, index_div.
Qed.

(** A neighbour read at a wrapped coordinate sees what the pattern has at
    the unwrapped offset. *)
Lemma pattern_near (P : Z → Z → bool) (u v x' y' : Z) :
  radius1 P → same_near cx (u + cx) x' → same_near cy (v + cy) y' →
  P (x' - cx) (y' - cy) = P u v.
Proof.
  intros HP Hx Hy. apply HP; unfold same_near in *; lia.
Qed.

Lemma live_neighbor_count_pattern (P : Z → Z → bool) (x y : Z) :
  radius1 P → 0 ≤ x < W → 0 ≤ y < H →
  live_neighbor_count W H (pattern_grid W H cx cy P) x y
  = ring_sum P (x - cx) (y - cy).
Proof.
  intros HP Hx Hy.
  pose proof (wrap_bound_x W W_pos (x - 1 + W)).
  pose proof (wrap_bound_x W W_pos (x + 1)).
  pose proof (wrap_bound_y H H_pos (y - 1 + H)).
  pose proof (wrap_bound_y H H_pos (y + 1)).
  pose proof (wrap_pred W x W_pos Hx). pose proof (wrap_succ W x W_pos Hx).
  pose proof (wrap_pred H y H_pos Hy). pose proof (wrap_succ H y H_pos Hy).
  unfold live_neighbor_count, neighbor_coords, ring_sum. simpl.
  rewrite !at_xy_pattern_grid by done.
  set (xl := (x - 1 + W) mod W) in *. set (xr := (x + 1) mod W) in *.
  set (yu := (y - 1 + H) mod H) in *. set (yd := (y + 1) mod H) in *.
  rewrite (pattern_near P (x - cx - 1) (y - cy - 1) xl yu),
          (pattern_near P (x - cx) (y - cy - 1) x yu),
          (pattern_near P (x - cx + 1) (y - cy - 1) xr yu),
          (pattern_near P (x - cx - 1) (y - cy) xl y),
          (pattern_near P (x - cx + 1) (y - cy) xr y),
          (pattern_near P (x - cx - 1) (y - cy + 1) xl yd),
          (pattern_near P (x - cx) (y - cy + 1) x yd),
          (pattern_near P (x - cx + 1) (y - cy + 1) xr yd)
    by (try done; unfold same_near; lia).
  done.
Qed.

(** A step of a radius-1 pattern placed away from the seam follows the
    rule on offsets. *)
Lemma next_grid_pattern (P Q : Z → Z → bool) :
  radius1 P →
  (∀ u v, next_state (Z.b2z (P u v)) (ring_sum P u v) = Z.b2z (Q u v)) →
  next_grid W H (pattern_grid W H cx cy P) = pattern_grid W H cx cy Q.
Proof.
  intros HP Hrule. unfold next_grid. unfold pattern_grid at 2.
  apply Forall_fmap_ext, Forall_seqZ. intros i Hi. unfold GRID_SIZE in Hi.
  destruct (index_split W H W_pos i) as (Hx & Hy & Hsplit); [lia|].
  unfold next_cell. rewrite live_neighbor_count_pattern by done.
  rewrite <- Hrule. f_equal.
  rewrite Hsplit at 1. fold (at_xy W (pattern_grid W H cx cy P) (i mod W) (i / W)).
  by apply at_xy_pattern_grid.
Qed.

Lemma grid_of_pattern (live : list (Z * Z)) (P : Z → Z → bool) :
  (∀ x y, (x, y) ∈ live ↔ P (x - cx) (y - cy) = true) →
  grid_of W H live = pattern_grid W H cx cy P.
Proof.
  intros Hiff. unfold grid_of, pattern_grid.
  apply Forall_fmap_ext, Forall_seqZ. intros i _. simpl. f_equal.
  destruct (P _ _) eqn:HP.
  - apply bool_decide_eq_true_2. by apply Hiff.
  - apply bool_decide_eq_false_2. rewrite Hiff. congruence.
Qed.

Lemma blinker_h_pattern : blinker_h W H cx cy = pattern_grid W H cx cy line3.
Proof.
  apply grid_of_pattern. intros x y. unfold line3.
  rewrite !elem_of_cons, elem_of_nil, !andb_true_iff, Z.eqb_eq, !Z.leb_le.
  split.
  - intros [E|[E|[E|[]]]]; injection E; lia.
  - intros [[Hy Hl] Hr].
    assert (x = cx - 1 ∨ x = cx ∨ x = cx + 1) as [->|[->| ->]] by lia;
      replace y with cy by lia; auto.
Qed.

Lemma blinker_v_pattern :
  blinker_v W H cx cy = pattern_grid W H cx cy (flip line3).
Proof.
  apply grid_of_pattern. intros x y. unfold flip, line3.
  rewrite !elem_of_cons, elem_of_nil, !andb_true_iff, Z.eqb_eq, !Z.leb_le.
  split.
  - intros [E|[E|[E|[]]]]; injection E; lia.
  - intros [[Hx Hl] Hr].
    assert (y = cy - 1 ∨ y = cy ∨ y = cy + 1) as [->|[->| ->]] by lia;
      replace x with cx by lia; auto.
Qed.

Lemma next_grid_blinker_h :
  next_grid W H (blinker_h W H cx cy) = blinker_v W H cx cy.
Proof.
  rewrite blinker_h_pattern, blinker_v_pattern.
  apply next_grid_pattern; [apply line3_radius1 | apply line3_rule].
Qed.

Lemma next_grid_blinker_v :
  next_grid W H (blinker_v W H cx cy) = blinker_h W H cx cy.
Proof.
  rewrite blinker_h_pattern, blinker_v_pattern.
  apply next_grid_pattern;
    [apply flip_radius1, line3_radius1 | apply flip_line3_rule].
Qed.

End Patterns.

(** C7.  On a [W] by [H] grid with the centre [(cx, cy)] at least two
    cells away from every edge (so [W] and [H] are at least 5; the centre of
    the 10 by 10 and of the 100 by 100 grid qualify), from a state whose
    current generation is dead except for the horizontal line
    [(cx-1, cy)], [(cx, cy)], [(cx+1, cy)]: one step returns a state whose
    live cells are exactly the vertical line [(cx, cy-1)], [(cx, cy)],
    [(cx, cy+1)], and a second step returns a state whose current generation
    is the original one. *)
Theorem blinker_period_two (W H : Z) (BLACK : Color) (cx cy : Z) (s : Sim) :
  2 ≤ cx ≤ W - 3 → 2 ≤ cy ≤ H - 3 →
  sized W H s → currentGen s = blinker_h W H cx cy →
  ∃ s1 s2,
    UpdateGameOfLife W H BLACK s = Some s1 ∧
    currentGen s1 = blinker_v W H cx cy ∧
    UpdateGameOfLife W H BLACK s1 = Some s2 ∧
    currentGen s2 = blinker_h W H cx cy.
Proof.
  intros Hcx Hcy Hs Hcur.
  assert (HW : 0 < W) by lia. assert (HH : 0 < H) by lia.
  exists (after_step W H BLACK (currentGen s)),
         (after_step W H BLACK (blinker_v W H cx cy)).
  split; [by apply UpdateGameOfLife_after_step|].
  assert (Hone : currentGen (after_step W H BLACK (currentGen s))
                 = blinker_v W H cx cy).
  { simpl. rewrite Hcur. by apply next_grid_blinker_h. }
  split; [done|].
  split.
  - rewrite UpdateGameOfLife_after_step; [|done|done|apply sized_after_step; done].
    by rewrite Hone.
  - simpl. by apply next_grid_blinker_v.
Qed.

(** ** The wrap helper *)

(** C9.  For positive [W] and [H], every [x] in [[-1, W]] and every [y] in
    [[-1, H]]: the branch-based [GetIndex x y] is
    [((y + H) mod H) * W + ((x + W) mod W)], also with C++'s [%] in place
    of [mod]. *)
Theorem GetIndex_is_modulo_wrap (W H x y : Z) :
  0 < W → 0 < H → -1 ≤ x ≤ W → -1 ≤ y ≤ H →
  GetIndex W H x y = wrap_index W H x y
  ∧ GetIndex W H x y = Z.rem (y + H) H * W + Z.rem (x + W) W.
Proof.
  intros HW HH Hx Hy.
  destruct (wrap_coord W x HW Hx) as [Hxm Hxr].
  destruct (wrap_coord H y HH Hy) as [Hym Hyr].
  unfold GetIndex, wrap_index. rewrite Hxr, Hyr, Hxm, Hym. done.
Qed.

(** C10.  For positive [W] and [H]: every index the step uses for a cell
    [(x, y)] of the grid, the eight neighbour reads and [y_offset + x], lies
    in [[0, W * H)]; and the step, in which an access outside a buffer has
    no result, returns on every state whose buffers have [W * H] entries. *)
Theorem step_indices_in_bounds (W H : Z) (BLACK : Color) :
  0 < W → 0 < H →
  (∀ x y, 0 ≤ x < W → 0 ≤ y < H →
     Forall (λ i, 0 ≤ i < W * H) (indices_used W H x y))
  ∧ (∀ s, sized W H s → is_Some (UpdateGameOfLife W H BLACK s)).
Proof.
  intros HW HH. split.
  - intros x y Hx Hy. unfold indices_used.
    rewrite rem_left, rem_right, rem_up, rem_down by done.
    pose proof (wrap_bound_x W HW (x - 1 + W)).
    pose proof (wrap_bound_x W HW (x + 1)).
    pose proof (wrap_bound_y H HH (y - 1 + H)).
    pose proof (wrap_bound_y H HH (y + 1)).
    repeat constructor; nia.
  - intros s Hs. rewrite UpdateGameOfLife_after_step by done. by eexists.
Qed.

(** ** Start-up and the dimensions *)

(** C8, as stated, fails: with both dimensions equal to -1 (so [GRID_SIZE]
    is 1) nothing rejects them; start-up returns a state of one dead cell,
    and a step on that state returns too. *)
Lemma nonpositive_dimensions_accepted :
  (-1 ≤ 0 ∨ -1 ≤ 0)
  ∧ startup (-1) (-1) Src.BLACK (λ _, 0)
    = Some (mkSim [0] [0] [Src.BLACK])
  ∧ UpdateGameOfLife (-1) (-1) Src.BLACK (mkSim [0] [0] [Src.BLACK])
    = Some (mkSim [0] [0] [Src.BLACK]).
Proof. split; [lia|]. split; reflexivity. Qed.

(** C8, amended.  The source has no check of the dimensions and no error
    value for them.  For positive [W] and [H] whose product is below
    [2 ^ 31], so that [GRID_SIZE] is an [int], start-up returns, whatever
    the draws, and leaves three buffers of [W * H] entries; this covers the
    dimensions of the source, 100 by 100. *)
Theorem startup_succeeds_on_positive_dimensions
    (W H : Z) (BLACK : Color) (draw : Z → Z) :
  0 < W → 0 < H → W * H < 2 ^ 31 →
  in_int W ∧ in_int H ∧ in_int (GRID_SIZE W H) ∧
  ∃ s, startup W H BLACK draw = Some s ∧ sized W H s.
Proof.
  intros HW HH HN. unfold in_int, GRID_SIZE.
  split; [nia|]. split; [nia|]. split; [nia|].
  exists (after_startup W H BLACK draw).
  split; [by apply startup_after_startup | apply sized_after_startup].
Qed.

(** ** No signed overflow *)

Lemma int_values_in_range (W H x y : Z) :
  0 < W ≤ 2 ^ 30 → 0 < H ≤ 2 ^ 30 → W * H < 2 ^ 31 →
  0 ≤ x ≤ W → 0 ≤ y ≤ H →
  (x < W → y < H → Forall in_int (int_values W H x y))
  ∧ in_int x ∧ in_int y.
Proof.
  intros HW HH HN Hx Hy. unfold in_int. split; [|lia].
  intros Hx' Hy'. unfold int_values, indices_used.
  rewrite rem_left, rem_right, rem_up, rem_down by lia.
  pose proof (wrap_bound_x W ltac:(lia) (x - 1 + W)).
  pose proof (wrap_bound_x W ltac:(lia) (x + 1)).
  pose proof (wrap_bound_y H ltac:(lia) (y - 1 + H)).
  pose proof (wrap_bound_y H ltac:(lia) (y + 1)).
  simpl. repeat constructor; nia.
Qed.

(** For the constants of the source every [int] of an iteration is in
    range. *)
Lemma int_range (x y : Z) :
  0 ≤ x < Src.GRID_WIDTH → 0 ≤ y < Src.GRID_HEIGHT →
  Forall in_int (int_values Src.GRID_WIDTH Src.GRID_HEIGHT x y).
Proof.
  unfold Src.GRID_WIDTH, Src.GRID_HEIGHT. intros Hx Hy.
  apply int_values_in_range; lia.
Qed.

(** ** The definitions at work *)

(** One step of the 4 by 3 demo grid, run through the loops. *)
Example demo_step :
  UpdateGameOfLife 4 3 Src.BLACK Demo.state
  = Some (after_step 4 3 Src.BLACK Demo.cells)
  ∧ next_grid 4 3 Demo.cells = [1; 1; 0; 0;
                                1; 1; 1; 0;
                                1; 1; 0; 0].
Proof. split; reflexivity. Qed.

(** The blinker on the 10 by 10 grid, run through the loops. *)
Example blinker_run :
  (s1 ← UpdateGameOfLife 10 10 Src.BLACK Demo.blinker; Some (currentGen s1))
  = Some (blinker_v 10 10 5 5)
  ∧ (s2 ← steps 10 10 Src.BLACK 2 Demo.blinker; Some (currentGen s2))
    = Some (blinker_h 10 10 5 5)
  ∧ blinker_h 10 10 5 5 ≠ blinker_v 10 10 5 5.
Proof. split; [|split]; [vm_compute; reflexivity..|discriminate]. Qed.

(** A single live cell dies; a 2 by 2 block stays. *)
Example lone_cell_and_block :
  next_grid 10 10 (grid_of 10 10 [(0, 0)]) = grid_of 10 10 []
  ∧ next_grid 10 10 (grid_of 10 10 [(4, 4); (5, 4); (4, 5); (5, 5)])
    = grid_of 10 10 [(4, 4); (5, 4); (4, 5); (5, 5)].
Proof. split; vm_compute; reflexivity. Qed.

(** A corner cell counts its neighbours across both seams. *)
Example corner_neighbors :
  neighbors_at 10 10 (grid_of 10 10 [(9, 9); (9, 0); (0, 9); (1, 1)]) 0 0
  = Some 4.
Proof. vm_compute. reflexivity. Qed.

(** ** The statements at concrete inputs *)

Lemma step_applies_conway_rule_witness :
  sized 4 3 Demo.state ∧
  ∃ s', UpdateGameOfLife 4 3 Src.BLACK Demo.state = Some s' ∧
    ∀ i, 0 ≤ i < 4 * 3 →
      let n := live_neighbor_count 4 3 (currentGen Demo.state)
                                   (i mod 4) (i / 4) in
      ∃ c c',
        currentGen Demo.state !! Z.to_nat i = Some c ∧
        neighbors_at 4 3 (currentGen Demo.state) (i mod 4) (i / 4) = Some n ∧
        (binary (currentGen Demo.state) →
         n = live_neighbors 4 3 (currentGen Demo.state) (i mod 4) (i / 4)) ∧
        currentGen s' !! Z.to_nat i = Some c' ∧
        conway c n c'.
Proof.
  split; [repeat split|].
  apply (step_applies_conway_rule 4 3 Src.BLACK); [lia|lia|repeat split].
Defined.


Lemma pixels_depict_current_generation_witness :
  Src.BLACK ≠ CYAN ∧ sized 4 3 Demo.state ∧
  (∃ s', UpdateGameOfLife 4 3 Src.BLACK Demo.state = Some s'
         ∧ pixels_match 4 3 Src.BLACK s') ∧
  (∃ s0, startup 4 3 Src.BLACK Demo.draw = Some s0
         ∧ pixels_match 4 3 Src.BLACK s0).
Proof.
  assert (Hne : Src.BLACK ≠ CYAN) by discriminate.
  destruct (pixels_depict_current_generation 4 3 Src.BLACK) as [Hstep Hseed];
    [lia|lia|exact Hne|].
  split; [exact Hne|]. split; [repeat split|].
  split; [apply Hstep; repeat split | apply Hseed].
Defined.

Lemma step_deterministic_witness :
  sized 4 3 Demo.state ∧ sized 4 3 Demo.state' ∧
  currentGen Demo.state = currentGen Demo.state' ∧
  UpdateGameOfLife 4 3 Src.BLACK Demo.state
  = UpdateGameOfLife 4 3 Src.BLACK Demo.state'
  ∧ ∀ n, ∃ t, steps 4 3 Src.BLACK (S n) Demo.state = Some t
              ∧ steps 4 3 Src.BLACK (S n) Demo.state' = Some t.
Proof.
  split; [repeat split|]. split; [repeat split|]. split; [reflexivity|].
  apply (step_deterministic 4 3 Src.BLACK);
    [lia|lia|repeat split|repeat split|reflexivity].
Defined.

Lemma step_commutes_with_translation_witness :
  sized 4 3 Demo.state ∧ sized 4 3 Demo.shifted ∧
  currentGen Demo.shifted = translate 4 3 1 2 (currentGen Demo.state) ∧
  (∃ s' st',
     UpdateGameOfLife 4 3 Src.BLACK Demo.state = Some s' ∧
     UpdateGameOfLife 4 3 Src.BLACK Demo.shifted = Some st' ∧
     currentGen st' = translate 4 3 1 2 (currentGen s'))
  ∧ ∀ x y, 0 ≤ x < 4 → 0 ≤ y < 3 →
      is_Some (neighbors_at 4 3 (currentGen Demo.shifted) x y) ∧
      neighbors_at 4 3 (currentGen Demo.shifted) x y
      = neighbors_at 4 3 (currentGen Demo.state) ((x - 1) mod 4) ((y - 2) mod 3).
Proof.
  split; [repeat split|]. split; [repeat split|]. split; [reflexivity|].
  apply (step_commutes_with_translation 4 3 Src.BLACK);
    [lia|lia|repeat split|repeat split|reflexivity].
Defined.

Lemma buffer_sizes_preserved_witness :
  sized 4 3 Demo.state ∧
  (∃ s0, startup 4 3 Src.BLACK Demo.draw = Some s0 ∧ sized 4 3 s0) ∧
  ∃ s', steps 4 3 Src.BLACK 3 Demo.state = Some s' ∧
        length (currentGen s') = Z.to_nat (4 * 3) ∧
        length (nextGen s') = Z.to_nat (4 * 3) ∧
        length (pixels s') = Z.to_nat (4 * 3).
Proof.
  destruct (buffer_sizes_preserved 4 3 Src.BLACK) as [Hstart Hsteps];
    [lia|lia|].
  split; [repeat split|].
  split; [apply Hstart | apply Hsteps; repeat split].
Defined.

Lemma blinker_period_two_witness :
  2 ≤ 5 ≤ 10 - 3 ∧ sized 10 10 Demo.blinker ∧
  currentGen Demo.blinker = blinker_h 10 10 5 5 ∧
  ∃ s1 s2,
    UpdateGameOfLife 10 10 Src.BLACK Demo.blinker = Some s1 ∧
    currentGen s1 = blinker_v 10 10 5 5 ∧
    UpdateGameOfLife 10 10 Src.BLACK s1 = Some s2 ∧
    currentGen s2 = blinker_h 10 10 5 5.
Proof.
  split; [lia|]. split; [repeat split|]. split; [reflexivity|].
  apply (blinker_period_two 10 10 Src.BLACK 5 5);
    [lia|lia|repeat split|reflexivity].
Defined.

Lemma startup_succeeds_on_positive_dimensions_witness :
  0 < Src.GRID_WIDTH ∧ 0 < Src.GRID_HEIGHT ∧
  Src.GRID_WIDTH * Src.GRID_HEIGHT < 2 ^ 31 ∧
  in_int Src.GRID_WIDTH ∧ in_int Src.GRID_HEIGHT ∧
  in_int (GRID_SIZE Src.GRID_WIDTH Src.GRID_HEIGHT) ∧
  ∃ s, Src.startup Demo.draw = Some s
       ∧ sized Src.GRID_WIDTH Src.GRID_HEIGHT s.
Proof.
  split; [reflexivity|]. split; [reflexivity|]. split; [reflexivity|].
  apply (startup_succeeds_on_positive_dimensions
           Src.GRID_WIDTH Src.GRID_HEIGHT Src.BLACK Demo.draw); reflexivity.
Defined.

Lemma GetIndex_is_modulo_wrap_witness :
  0 < Src.GRID_WIDTH ∧ 0 < Src.GRID_HEIGHT ∧
  -1 ≤ -1 ≤ Src.GRID_WIDTH ∧ -1 ≤ 100 ≤ Src.GRID_HEIGHT ∧
  GetIndex Src.GRID_WIDTH Src.GRID_HEIGHT (-1) 100
  = wrap_index Src.GRID_WIDTH Src.GRID_HEIGHT (-1) 100
  ∧ GetIndex Src.GRID_WIDTH Src.GRID_HEIGHT (-1) 100
    = Z.rem (100 + Src.GRID_HEIGHT) Src.GRID_HEIGHT * Src.GRID_WIDTH
      + Z.rem (-1 + Src.GRID_WIDTH) Src.GRID_WIDTH.
Proof.
  unfold Src.GRID_WIDTH, Src.GRID_HEIGHT.
  split; [lia|]. split; [lia|]. split; [lia|]. split; [lia|].
  apply (GetIndex_is_modulo_wrap 100 100 (-1) 100); lia.
Defined.

Lemma step_indices_in_bounds_witness :
  0 < 4 ∧ 0 < 3 ∧ sized 4 3 Demo.state ∧
  Forall (λ i, 0 ≤ i < 4 * 3) (indices_used 4 3 3 2)
  ∧ is_Some (UpdateGameOfLife 4 3 Src.BLACK Demo.state).
Proof.
  destruct (step_indices_in_bounds 4 3 Src.BLACK) as [Hidx Hrun]; [lia|lia|].
  split; [lia|]. split; [lia|]. split; [repeat split|].
  split; [apply Hidx; lia | apply Hrun; repeat split].
Defined.

(** * Further properties of the code *)

(** Membership in a list that is written out. *)
Ltac in_list :=
  repeat first [apply list_elem_of_here | apply list_elem_of_further].

(** ** [GetIndex] on arbitrary arguments *)

(** X1.  For positive [W] and [H], [GetIndex] returns an index of the grid
    for every pair of integers, in range or not. *)
Theorem GetIndex_in_bounds (W H x y : Z) :
  0 < W → 0 < H → 0 ≤ GetIndex W H x y < W * H.
Proof.
  intros HW HH. unfold GetIndex. rewrite !Z.geb_leb.
  destruct (Z.ltb_spec x 0), (Z.leb_spec W x),
           (Z.ltb_spec y 0), (Z.leb_spec H y); nia.
Qed.

Lemma GetIndex_in_bounds_witness :
  0 < Src.GRID_WIDTH ∧ 0 < Src.GRID_HEIGHT ∧
  0 ≤ GetIndex Src.GRID_WIDTH Src.GRID_HEIGHT (-7) 250
    < Src.GRID_WIDTH * Src.GRID_HEIGHT.
Proof.
  split; [reflexivity|]. split; [reflexivity|].
  apply (GetIndex_in_bounds Src.GRID_WIDTH Src.GRID_HEIGHT (-7) 250);
    reflexivity.
Defined.

(** [GetIndex] one step around the grid, from the arithmetic of [wrap_coord]
    alone. *)
Lemma GetIndex_near (W H x y : Z) :
  0 < W → 0 < H → -1 ≤ x ≤ W → -1 ≤ y ≤ H →
  GetIndex W H x y = (y + H) mod H * W + (x + W) mod W.
Proof.
  intros HW HH Hx Hy.
  destruct (wrap_coord W x HW Hx) as [-> _].
  destruct (wrap_coord H y HH Hy) as [-> _]. done.
Qed.

(** Row-major indices of grid coordinates determine the coordinates. *)
Lemma index_inj (W x1 y1 x2 y2 : Z) :
  0 ≤ x1 < W → 0 ≤ x2 < W →
  y1 * W + x1 = y2 * W + x2 → x1 = x2 ∧ y1 = y2.
Proof.
  intros H1 H2 Heq.
  assert (Hx : x1 = x2).
  { rewrite <- (index_mod W ltac:(lia) x1 y1 H1),
            <- (index_mod W ltac:(lia) x2 y2 H2).
    by rewrite Heq. }
  split; [done|]. subst x2. nia.
Qed.

(** Being one below a multiple of [n], said in two ways. *)
Lemma mod_last_iff (n x : Z) :
  0 < n → (x mod n = n - 1 ↔ (x + 1) mod n = 0).
Proof.
  intros Hn. split; intros Hx.
  - rewrite <- Zplus_mod_idemp_l, Hx.
    replace (n - 1 + 1) with (0 + 1 * n) by lia.
    by rewrite Z.mod_add by lia.
  - replace x with (x + 1 - 1) at 1 by lia.
    rewrite <- Zminus_mod_idemp_l, Hx.
    replace (0 - 1) with (n - 1 + -1 * n) by lia.
    rewrite Z.mod_add by lia. apply Z.mod_small. lia.
Qed.

(** The column [GetIndex] picks is the modulo-wrapped one exactly when a
    coordinate off the grid is congruent to the edge it is sent to. *)
Lemma GetIndex_coord_agrees (n z : Z) :
  0 < n →
  let picked := if z <? 0 then n - 1 else if z >=? n then 0 else z in
  0 ≤ picked < n ∧
  (picked = (z + n) mod n ↔
   (z < 0 → (z + 1) mod n = 0) ∧ (n ≤ z → z mod n = 0)).
Proof.
  intros Hn picked. subst picked. rewrite Z.geb_leb.
  replace (z + n) with (z + 1 * n) by lia. rewrite Z.mod_add by lia.
  pose proof (mod_last_iff n z Hn) as Hlast.
  destruct (Z.ltb_spec z 0); [|destruct (Z.leb_spec n z)].
  - split; [lia|]. split.
    + intros Heq. split; [intros _; apply Hlast; lia | lia].
    + intros [Hneg _]. symmetry. apply Hlast. by apply Hneg.
  - split; [lia|]. split.
    + intros Heq. split; [lia | intros _; lia].
    + intros [_ Hbig]. symmetry. by apply Hbig.
  - split; [lia|]. split.
    + intros _. split; lia.
    + intros _. symmetry. apply Z.mod_small. lia.
Qed.

(** X2.  [GetIndex] sends a coordinate off the grid to the opposite edge
    whatever its distance, so it is the modulo-wrapped index exactly when
    every negative coordinate is congruent to -1 and every coordinate at or
    beyond the size is congruent to 0, modulo the size.  It agrees one step
    off the grid, differs at [x = -2] on a grid at least two cells wide, and
    agrees again at [x = -W - 1]. *)
Theorem GetIndex_agrees_with_modulo_iff (W H x y : Z) :
  0 < W → 0 < H →
  (GetIndex W H x y = wrap_index W H x y ↔
   (x < 0 → (x + 1) mod W = 0) ∧ (W ≤ x → x mod W = 0) ∧
   (y < 0 → (y + 1) mod H = 0) ∧ (H ≤ y → y mod H = 0)).
Proof.
  intros HW HH.
  destruct (GetIndex_coord_agrees W x HW) as [Hcx Hx].
  destruct (GetIndex_coord_agrees H y HH) as [Hcy Hy].
  pose proof (Z.mod_pos_bound (x + W) W HW) as Hmx.
  unfold GetIndex, wrap_index. simpl in *.
  split.
  - intros Heq. apply index_inj in Heq as [Ex Ey]; [|lia|lia].
    apply Hx in Ex. apply Hy in Ey. tauto.
  - intros (H1 & H2 & H3 & H4).
    assert (Ex : (if x <? 0 then W - 1 else if x >=? W then 0 else x)
                 = (x + W) mod W) by (apply Hx; tauto).
    assert (Ey : (if y <? 0 then H - 1 else if y >=? H then 0 else y)
                 = (y + H) mod H) by (apply Hy; tauto).
    by rewrite Ex, Ey.
Qed.

Lemma GetIndex_agrees_with_modulo_iff_witness :
  0 < Src.GRID_WIDTH ∧ 0 < Src.GRID_HEIGHT ∧
  (GetIndex Src.GRID_WIDTH Src.GRID_HEIGHT (-2) 7
   = wrap_index Src.GRID_WIDTH Src.GRID_HEIGHT (-2) 7 ↔
   (-2 < 0 → (-2 + 1) mod Src.GRID_WIDTH = 0) ∧
   (Src.GRID_WIDTH ≤ -2 → -2 mod Src.GRID_WIDTH = 0) ∧
   (7 < 0 → (7 + 1) mod Src.GRID_HEIGHT = 0) ∧
   (Src.GRID_HEIGHT ≤ 7 → 7 mod Src.GRID_HEIGHT = 0)).
Proof.
  split; [reflexivity|]. split; [reflexivity|].
  apply (GetIndex_agrees_with_modulo_iff
           Src.GRID_WIDTH Src.GRID_HEIGHT (-2) 7); reflexivity.
Defined.

(** Two steps off the edge the two differ; a full turn further they agree. *)
Example GetIndex_far_off_grid :
  GetIndex 100 100 (-2) 7 = 799 ∧ wrap_index 100 100 (-2) 7 = 798
  ∧ GetIndex 100 100 (-101) 7 = wrap_index 100 100 (-101) 7
  ∧ GetIndex 100 100 200 7 = wrap_index 100 100 200 7
  ∧ GetIndex 100 100 201 7 = 700 ∧ wrap_index 100 100 201 7 = 701.
Proof. repeat split; reflexivity. Qed.

(** X3.  On coordinates of the grid [GetIndex] is the row-major index, and
    it inverts the split of an index into column [i mod W] and row
    [i / W]. *)
Theorem GetIndex_row_major (W H : Z) :
  0 < W → 0 < H →
  (∀ x y, 0 ≤ x < W → 0 ≤ y < H →
     GetIndex W H x y = y * W + x
     ∧ GetIndex W H x y mod W = x ∧ GetIndex W H x y / W = y)
  ∧ (∀ i, 0 ≤ i < W * H → GetIndex W H (i mod W) (i / W) = i).
Proof.
  intros HW HH.
  assert (Hin : ∀ x y, 0 ≤ x < W → 0 ≤ y < H → GetIndex W H x y = y * W + x).
  { intros x y Hx Hy. unfold GetIndex. rewrite !Z.geb_leb.
    destruct (Z.ltb_spec x 0), (Z.leb_spec W x),
             (Z.ltb_spec y 0), (Z.leb_spec H y); lia. }
  split.
  - intros x y Hx Hy. rewrite Hin by done.
    split; [done|]. split; [by apply index_mod | by apply index_div].
  - intros i Hi. destruct (index_split W H HW i Hi) as (Hx & Hy & Hsplit).
    rewrite Hin by done. lia.
Qed.

Lemma GetIndex_row_major_witness :
  0 < 4 ∧ 0 < 3 ∧
  GetIndex 4 3 (11 mod 4) (11 / 4) = 11.
Proof.
  split; [lia|]. split; [lia|].
  destruct (GetIndex_row_major 4 3) as [_ Hinv]; [lia|lia|].
  apply Hinv. lia.
Defined.

(** ** The indices of the step and [GetIndex] *)

(** X4.  The index arithmetic inlined in [UpdateGameOfLife] is that of
    [GetIndex]: for a cell [(x, y)] of the grid, the nine indices the step
    uses are [GetIndex] at the eight neighbouring coordinate pairs and at
    [(x, y)] itself. *)
Theorem step_indices_are_GetIndex (W H x y : Z) :
  0 < W → 0 < H → 0 ≤ x < W → 0 ≤ y < H →
  indices_used W H x y = GetIndex_around W H x y.
Proof.
  intros HW HH Hx Hy. unfold indices_used, GetIndex_around.
  rewrite !GetIndex_near by lia.
  rewrite rem_left, rem_right, rem_up, rem_down by done.
  replace (x + 1 + W) with (x + 1 + 1 * W) by lia.
  replace (y + 1 + H) with (y + 1 + 1 * H) by lia.
  replace (x + W) with (x + 1 * W) by lia.
  replace (y + H) with (y + 1 * H) by lia.
  rewrite !Z.mod_add by lia.
  rewrite (Z.mod_small x W), (Z.mod_small y H) by lia.
  replace (x - 1 + 1 * W) with (x - 1 + W) by lia.
  replace (y - 1 + 1 * H) with (y - 1 + H) by lia.
  done.
Qed.

Lemma step_indices_are_GetIndex_witness :
  0 < 4 ∧ 0 < 3 ∧ 0 ≤ 3 < 4 ∧ 0 ≤ 0 < 3 ∧
  indices_used 4 3 3 0 = GetIndex_around 4 3 3 0.
Proof.
  split; [lia|]. split; [lia|]. split; [lia|]. split; [lia|].
  apply (step_indices_are_GetIndex 4 3 3 0); lia.
Defined.

(** X5.  On a grid at least three cells wide and three cells high, the nine
    indices the step uses for a cell are pairwise different: the sum in
    [neighbors] reads eight different cells, none of them the cell itself. *)
Theorem step_reads_distinct_cells (W H x y : Z) :
  3 ≤ W → 3 ≤ H → 0 ≤ x < W → 0 ≤ y < H →
  NoDup (indices_used W H x y).
Proof.
  intros HW HH Hx Hy. unfold indices_used.
  rewrite rem_left, rem_right, rem_up, rem_down by lia.
  pose proof (wrap_bound_x W ltac:(lia) (x - 1 + W)).
  pose proof (wrap_bound_x W ltac:(lia) (x + 1)).
  pose proof (wrap_bound_y H ltac:(lia) (y - 1 + H)).
  pose proof (wrap_bound_y H ltac:(lia) (y + 1)).
  pose proof (wrap_pred W x ltac:(lia) Hx).
  pose proof (wrap_succ W x ltac:(lia) Hx).
  pose proof (wrap_pred H y ltac:(lia) Hy).
  pose proof (wrap_succ H y ltac:(lia) Hy).
  set (xl := (x - 1 + W) mod W) in *. set (xr := (x + 1) mod W) in *.
  set (yu := (y - 1 + H) mod H) in *. set (yd := (y + 1) mod H) in *.
  repeat (apply NoDup_cons; split;
          [rewrite ?elem_of_cons, elem_of_nil; intros Hin;
           repeat (destruct Hin as [Hin|Hin]); try done;
           apply index_inj in Hin; lia|]).
  apply NoDup_nil_2.
Qed.

Lemma step_reads_distinct_cells_witness :
  3 ≤ 4 ∧ 3 ≤ 3 ∧ 0 ≤ 0 < 4 ∧ 0 ≤ 2 < 3 ∧ NoDup (indices_used 4 3 0 2).
Proof.
  split; [lia|]. split; [lia|]. split; [lia|]. split; [lia|].
  apply (step_reads_distinct_cells 4 3 0 2); lia.
Defined.

Section StepFacts.

Variables W H : Z.
Variable BLACK : Color.
Hypothesis W_pos : 0 < W.
Hypothesis H_pos : 0 < H.

(** ** What a step reads and what it writes *)

Lemma vec_get_lookup {A} (v : list A) (i : Z) :
  0 ≤ i → vec_get v i = v !! Z.to_nat i.
Proof. intros Hi. unfold vec_get. by destruct (Z.leb_spec 0 i); [|lia]. Qed.

Lemma indices_used_nonneg (x y i : Z) :
  0 ≤ x < W → 0 ≤ y < H → i ∈ indices_used W H x y → 0 ≤ i.
Proof.
  intros Hx Hy. unfold indices_used.
  rewrite rem_left, rem_right, rem_up, rem_down by done.
  pose proof (wrap_bound_x W W_pos (x - 1 + W)).
  pose proof (wrap_bound_x W W_pos (x + 1)).
  pose proof (wrap_bound_y H H_pos (y - 1 + H)).
  pose proof (wrap_bound_y H H_pos (y + 1)).
  rewrite !elem_of_cons, elem_of_nil. intros Hin.
  repeat (destruct Hin as [->|Hin]); try done; nia.
Qed.

(** X6.  The next value and the next colour of a cell depend on nine
    entries of the current generation only: two states that agree at the
    nine indices the step uses for the cell [(x, y)] get the same cell and
    the same colour at [(x, y)], whatever the rest of their grids holds. *)
Theorem step_is_local (s1 s2 : Sim) (x y : Z) :
  sized W H s1 → sized W H s2 → 0 ≤ x < W → 0 ≤ y < H →
  (∀ i, i ∈ indices_used W H x y →
        currentGen s1 !! Z.to_nat i = currentGen s2 !! Z.to_nat i) →
  ∃ t1 t2,
    UpdateGameOfLife W H BLACK s1 = Some t1 ∧
    UpdateGameOfLife W H BLACK s2 = Some t2 ∧
    currentGen t1 !! Z.to_nat (y * W + x)
    = currentGen t2 !! Z.to_nat (y * W + x) ∧
    pixels t1 !! Z.to_nat (y * W + x) = pixels t2 !! Z.to_nat (y * W + x).
Proof.
  intros Hs1 Hs2 Hx Hy Hsame.
  do 2 eexists.
  split; [by apply UpdateGameOfLife_after_step|].
  split; [by apply UpdateGameOfLife_after_step|].
  destruct Hs1 as (Hc1 & _), Hs2 as (Hc2 & _).
  pose proof (index_bound W H W_pos x y Hx Hy) as Hidx.
  pose proof (λ i, indices_used_nonneg x y i Hx Hy) as Hrange.
  assert (Hcount : live_neighbor_count W H (currentGen s1) x y
                   = live_neighbor_count W H (currentGen s2) x y).
  { assert (Some (live_neighbor_count W H (currentGen s1) x y)
            = Some (live_neighbor_count W H (currentGen s2) x y)) as [= ->];
      [|done].
    rewrite <- !(neighbors_of_count W H W_pos H_pos) by done.
    unfold neighbors_of.
    rewrite !(vec_get_lookup (currentGen s1)),
            !(vec_get_lookup (currentGen s2)).
    2-17: apply Hrange; unfold indices_used; in_list.
    rewrite !Hsame by (unfold indices_used; in_list). done. }
  assert (Hcell : next_cell W H (currentGen s1) (y * W + x)
                  = next_cell W H (currentGen s2) (y * W + x)).
  { unfold next_cell. rewrite index_mod, index_div by done.
    rewrite Hcount, Hsame by (unfold indices_used; in_list). done. }
  simpl. rewrite !list_lookup_fmap, !(lookup_next_grid W H W_pos H_pos) by done.
  by rewrite Hcell.
Qed.

(** X7.  A step normalises the state: whatever bytes the current
    generation held, every cell of the state it returns is 0 or 1, [nextGen]
    is a copy of [currentGen], and every colour is the foreground colour or
    [BLACK]. *)
Theorem step_normalises (s : Sim) :
  sized W H s →
  ∃ s', UpdateGameOfLife W H BLACK s = Some s' ∧
        binary (currentGen s') ∧
        nextGen s' = currentGen s' ∧
        Forall (λ p, p = CYAN ∨ p = BLACK) (pixels s').
Proof.
  intros Hs. eexists. split; [by apply UpdateGameOfLife_after_step|]. simpl.
  split; [apply binary_next_grid|]. split; [done|].
  apply Forall_fmap, Forall_forall. intros c _. simpl.
  unfold pixel_of. destruct (truthy c); auto.
Qed.

(** ** Uniform grids *)

Lemma at_xy_uniform (c x y : Z) :
  0 ≤ x < W → 0 ≤ y < H → at_xy W (uniform_grid W H c) x y = c.
Proof.
  intros Hx Hy. unfold at_xy, uniform_grid, GRID_SIZE.
  pose proof (index_bound W H W_pos x y Hx Hy).
  by rewrite lookup_replicate_2 by lia.
Qed.

Lemma next_grid_uniform (c : Z) :
  next_grid W H (uniform_grid W H c)
  = uniform_grid W H (next_state c (8 * c)).
Proof.
  symmetry. unfold next_grid.
  apply (tabulate_eq W H W_pos H_pos); [apply length_replicate|].
  intros i Hi. unfold uniform_grid at 1, GRID_SIZE.
  rewrite lookup_replicate_2 by lia. f_equal.
  destruct (index_split W H W_pos i Hi) as (Hx & Hy & Hsplit).
  unfold next_cell. rewrite Hsplit at 1.
  fold (at_xy W (uniform_grid W H c) (i mod W) (i / W)).
  rewrite at_xy_uniform by done. f_equal.
  pose proof (wrap_bound_x W W_pos (i mod W - 1 + W)).
  pose proof (wrap_bound_x W W_pos (i mod W + 1)).
  pose proof (wrap_bound_y H H_pos (i / W - 1 + H)).
  pose proof (wrap_bound_y H H_pos (i / W + 1)).
  unfold live_neighbor_count, neighbor_coords, sumZ. simpl.
  rewrite !at_xy_uniform by done. lia.
Qed.

Lemma pixels_uniform (c : Z) :
  pixel_of BLACK <$> uniform_grid W H c
  = replicate (Z.to_nat (GRID_SIZE W H)) (pixel_of BLACK c).
Proof. unfold uniform_grid. apply fmap_replicate. Qed.

(** X8.  Extinction is final: from a state whose current generation is all
    dead, every sequence of one or more steps returns a state whose current
    generation is all dead and whose colours are all [BLACK]. *)
Theorem dead_grid_stays_dead (s : Sim) (n : nat) :
  sized W H s → currentGen s = uniform_grid W H 0 →
  ∃ s', steps W H BLACK (S n) s = Some s' ∧
        currentGen s' = uniform_grid W H 0 ∧
        pixels s' = replicate (Z.to_nat (GRID_SIZE W H)) BLACK.
Proof.
  revert s. induction n as [|n IH]; intros s Hs Hcur.
  - simpl. rewrite UpdateGameOfLife_after_step by done. simpl.
    eexists. split; [done|]. simpl. rewrite Hcur, next_grid_uniform.
    split; [done|]. apply pixels_uniform.
  - change (steps W H BLACK (S (S n)) s)
      with (UpdateGameOfLife W H BLACK s ≫= steps W H BLACK (S n)).
    rewrite UpdateGameOfLife_after_step by done. simpl.
    apply IH; [apply sized_after_step|].
    simpl. by rewrite Hcur, next_grid_uniform.
Qed.

(** X9.  Overcrowding on the full grid: from a state in which every cell
    is alive, one step returns the all-dead grid, on every grid size.  Each
    cell adds up eight reads of live cells, also on grids so small that the
    eight reads hit the same cells several times. *)
Theorem full_grid_dies (s : Sim) :
  sized W H s → currentGen s = uniform_grid W H 1 →
  ∃ s', UpdateGameOfLife W H BLACK s = Some s' ∧
        currentGen s' = uniform_grid W H 0 ∧
        ∀ x y, 0 ≤ x < W → 0 ≤ y < H →
               neighbors_at W H (currentGen s) x y = Some 8.
Proof.
  intros Hs Hcur. eexists.
  split; [by apply UpdateGameOfLife_after_step|]. simpl.
  split; [by rewrite Hcur, next_grid_uniform|].
  intros x y Hx Hy. destruct Hs as (Hc & _).
  unfold neighbors_at. rewrite (neighbors_of_count W H W_pos H_pos) by done.
  f_equal. rewrite Hcur.
  pose proof (wrap_bound_x W W_pos (x - 1 + W)).
  pose proof (wrap_bound_x W W_pos (x + 1)).
  pose proof (wrap_bound_y H H_pos (y - 1 + H)).
  pose proof (wrap_bound_y H H_pos (y + 1)).
  unfold live_neighbor_count, neighbor_coords, sumZ. simpl.
  rewrite !at_xy_uniform by done. done.
Qed.

(** ** Runs *)

(** X10.  In every state of a run, the one start-up leaves or one a later
    step leaves, all cells are 0 or 1, and the value the step computes in
    [neighbors] for any cell of the grid lies between 0 and 8. *)
Theorem run_cells_binary_counts_bounded (s : Sim) :
  reachable W H BLACK s →
  binary (currentGen s) ∧
  ∀ x y, 0 ≤ x < W → 0 ≤ y < H →
    ∃ n, neighbors_at W H (currentGen s) x y = Some n ∧ 0 ≤ n ≤ 8.
Proof.
  intros Hreach.
  destruct (reachable_sized_binary W H BLACK W_pos H_pos s Hreach)
    as ((Hlen & _) & Hbin).
  split; [done|]. intros x y Hx Hy.
  exists (live_neighbor_count W H (currentGen s) x y).
  split; [by apply neighbors_of_count|].
  assert (Hcell : ∀ x' y', 0 ≤ at_xy W (currentGen s) x' y' ≤ 1).
  { intros x' y'. unfold at_xy.
    destruct (currentGen s !! Z.to_nat (y' * W + x')) as [c|] eqn:Hc;
      simpl; [|lia].
    unfold binary in Hbin. rewrite Forall_lookup in Hbin.
    destruct (Hbin _ _ Hc); lia. }
  unfold live_neighbor_count, neighbor_coords, sumZ. simpl.
  pose proof (Hcell ((x - 1 + W) mod W) ((y - 1 + H) mod H)).
  pose proof (Hcell x ((y - 1 + H) mod H)).
  pose proof (Hcell ((x + 1) mod W) ((y - 1 + H) mod H)).
  pose proof (Hcell ((x - 1 + W) mod W) y).
  pose proof (Hcell ((x + 1) mod W) y).
  pose proof (Hcell ((x - 1 + W) mod W) ((y + 1) mod H)).
  pose proof (Hcell x ((y + 1) mod H)).
  pose proof (Hcell ((x + 1) mod W) ((y + 1) mod H)).
  lia.
Qed.

(** X11.  Seeding: start-up returns a state in which cell [i] is 1 when
    draw [i] is above 85 and 0 otherwise, for every index below [W * H], and
    in which [nextGen] still holds the zeros it was constructed with. *)
Theorem seeding_threshold (draw : Z → Z) :
  ∃ s, startup W H BLACK draw = Some s ∧
       nextGen s = uniform_grid W H 0 ∧
       ∀ i, 0 ≤ i < W * H →
         ∃ c, currentGen s !! Z.to_nat i = Some c ∧
              (85 < draw i → c = 1) ∧ (draw i ≤ 85 → c = 0).
Proof.
  eexists. split; [by apply startup_after_startup|]. simpl.
  split; [done|]. intros i Hi. eexists.
  split; [unfold seeded_cells; by apply lookup_tabulate|]. simpl.
  destruct (Z.gtb_spec (draw i) 85); simpl; split; intros; lia.
Qed.

End StepFacts.

(** ** No signed overflow, sums included *)

(** X12.  For dimensions up to [2 ^ 30] with [W * H] below [2 ^ 31], hence
    for the 100 by 100 of the source, and a current generation of [W * H]
    bytes: every [int] of the iteration for a cell of the grid is a 32-bit
    value, and the sum in [neighbors] is computed and lies between 0 and
    2040. *)
Theorem no_signed_overflow (W H : Z) (cur : list Z) (x y : Z) :
  0 < W ≤ 2 ^ 30 → 0 < H ≤ 2 ^ 30 → W * H < 2 ^ 31 →
  length cur = Z.to_nat (GRID_SIZE W H) → Forall is_byte cur →
  0 ≤ x < W → 0 ≤ y < H →
  Forall in_int (int_values W H x y)
  ∧ ∃ n, neighbors_at W H cur x y = Some n ∧ 0 ≤ n ≤ 2040.
Proof.
  intros HW HH HN Hlen Hbytes Hx Hy. split.
  - destruct (int_values_in_range W H x y) as [Hall _]; [lia..|].
    apply Hall; lia.
  - exists (live_neighbor_count W H cur x y).
    split; [apply neighbors_of_count; lia|].
    assert (Hcell : ∀ x' y', 0 ≤ at_xy W cur x' y' ≤ 255).
    { intros x' y'. unfold at_xy.
      destruct (cur !! Z.to_nat (y' * W + x')) as [c|] eqn:Hc; simpl; [|lia].
      rewrite Forall_lookup in Hbytes. apply (Hbytes _ _ Hc). }
    unfold live_neighbor_count, neighbor_coords, sumZ. simpl.
    pose proof (Hcell ((x - 1 + W) mod W) ((y - 1 + H) mod H)).
    pose proof (Hcell x ((y - 1 + H) mod H)).
    pose proof (Hcell ((x + 1) mod W) ((y - 1 + H) mod H)).
    pose proof (Hcell ((x - 1 + W) mod W) y).
    pose proof (Hcell ((x + 1) mod W) y).
    pose proof (Hcell ((x - 1 + W) mod W) ((y + 1) mod H)).
    pose proof (Hcell x ((y + 1) mod H)).
    pose proof (Hcell ((x + 1) mod W) ((y + 1) mod H)).
    lia.
Qed.

(** ** Mirror images *)

Lemma mirror_pred (n z : Z) :
  0 < n → 0 ≤ z < n → n - 1 - (z - 1 + n) mod n = (n - 1 - z + 1) mod n.
Proof.
  intros Hn Hz. pose proof (wrap_pred n z Hn Hz).
  pose proof (wrap_succ n (n - 1 - z) Hn ltac:(lia)).
  pose proof (Z.mod_pos_bound (z - 1 + n) n Hn).
  pose proof (Z.mod_pos_bound (n - 1 - z + 1) n Hn). lia.
Qed.

Lemma mirror_succ (n z : Z) :
  0 < n → 0 ≤ z < n → n - 1 - (z + 1) mod n = (n - 1 - z - 1 + n) mod n.
Proof.
  intros Hn Hz. pose proof (wrap_succ n z Hn Hz).
  pose proof (wrap_pred n (n - 1 - z) Hn ltac:(lia)).
  pose proof (Z.mod_pos_bound (z + 1) n Hn).
  pose proof (Z.mod_pos_bound (n - 1 - z - 1 + n) n Hn). lia.
Qed.

Section Mirrors.

Variables W H : Z.
Variable BLACK : Color.
Hypothesis W_pos : 0 < W.
Hypothesis H_pos : 0 < H.

Lemma at_xy_mirror_x (cells : list Z) (x y : Z) :
  0 ≤ x < W → 0 ≤ y < H →
  at_xy W (mirror_x W H cells) x y = at_xy W cells (W - 1 - x) y.
Proof.
  intros Hx Hy. unfold mirror_x. rewrite at_xy_tabulate by done.
  by rewrite index_mod, index_div.
Qed.

Lemma at_xy_mirror_y (cells : list Z) (x y : Z) :
  0 ≤ x < W → 0 ≤ y < H →
  at_xy W (mirror_y W H cells) x y = at_xy W cells x (H - 1 - y).
Proof.
  intros Hx Hy. unfold mirror_y. rewrite at_xy_tabulate by done.
  by rewrite index_mod, index_div.
Qed.

Lemma live_neighbor_count_mirror_x (cells : list Z) (x y : Z) :
  0 ≤ x < W → 0 ≤ y < H →
  live_neighbor_count W H (mirror_x W H cells) x y
  = live_neighbor_count W H cells (W - 1 - x) y.
Proof.
  intros Hx Hy.
  pose proof (wrap_bound_x W W_pos (x - 1 + W)).
  pose proof (wrap_bound_x W W_pos (x + 1)).
  pose proof (wrap_bound_y H H_pos (y - 1 + H)).
  pose proof (wrap_bound_y H H_pos (y + 1)).
  unfold live_neighbor_count, neighbor_coords, sumZ. simpl.
  rewrite !at_xy_mirror_x by done.
  rewrite !(mirror_pred W), !(mirror_succ W) by done. lia.
Qed.

Lemma live_neighbor_count_mirror_y (cells : list Z) (x y : Z) :
  0 ≤ x < W → 0 ≤ y < H →
  live_neighbor_count W H (mirror_y W H cells) x y
  = live_neighbor_count W H cells x (H - 1 - y).
Proof.
  intros Hx Hy.
  pose proof (wrap_bound_x W W_pos (x - 1 + W)).
  pose proof (wrap_bound_x W W_pos (x + 1)).
  pose proof (wrap_bound_y H H_pos (y - 1 + H)).
  pose proof (wrap_bound_y H H_pos (y + 1)).
  unfold live_neighbor_count, neighbor_coords, sumZ. simpl.
  rewrite !at_xy_mirror_y by done.
  rewrite !(mirror_pred H), !(mirror_succ H) by done. lia.
Qed.

Lemma next_grid_mirror_x (cells : list Z) :
  next_grid W H (mirror_x W H cells) = mirror_x W H (next_grid W H cells).
Proof.
  unfold next_grid at 1. unfold mirror_x at 2.
  apply Forall_fmap_ext, Forall_seqZ. intros i Hi. unfold GRID_SIZE in Hi.
  destruct (index_split W H W_pos i) as (Hx & Hy & Hsplit); [lia|].
  unfold next_cell. rewrite live_neighbor_count_mirror_x by done.
  unfold mirror_x. rewrite lookup_tabulate by lia. simpl.
  rewrite at_xy_next_grid by lia. done.
Qed.

Lemma next_grid_mirror_y (cells : list Z) :
  next_grid W H (mirror_y W H cells) = mirror_y W H (next_grid W H cells).
Proof.
  unfold next_grid at 1. unfold mirror_y at 2.
  apply Forall_fmap_ext, Forall_seqZ. intros i Hi. unfold GRID_SIZE in Hi.
  destruct (index_split W H W_pos i) as (Hx & Hy & Hsplit); [lia|].
  unfold next_cell. rewrite live_neighbor_count_mirror_y by done.
  unfold mirror_y. rewrite lookup_tabulate by lia. simpl.
  rewrite at_xy_next_grid by lia. done.
Qed.

(** X13.  The step has no handedness: if the current generation of [sx]
    is the left-right mirror image of that of [s], and that of [sy] its
    top-bottom mirror image, then the generations after a step are mirror
    images in the same way. *)
Theorem step_commutes_with_mirrors (s sx sy : Sim) :
  sized W H s → sized W H sx → sized W H sy →
  currentGen sx = mirror_x W H (currentGen s) →
  currentGen sy = mirror_y W H (currentGen s) →
  ∃ s' sx' sy',
    UpdateGameOfLife W H BLACK s = Some s' ∧
    UpdateGameOfLife W H BLACK sx = Some sx' ∧
    UpdateGameOfLife W H BLACK sy = Some sy' ∧
    currentGen sx' = mirror_x W H (currentGen s') ∧
    currentGen sy' = mirror_y W H (currentGen s').
Proof.
  intros Hs Hsx Hsy Hx Hy. do 3 eexists.
  split; [by apply UpdateGameOfLife_after_step|].
  split; [by apply UpdateGameOfLife_after_step|].
  split; [by apply UpdateGameOfLife_after_step|]. simpl.
  rewrite Hx, Hy. split; [apply next_grid_mirror_x | apply next_grid_mirror_y].
Qed.

End Mirrors.

(** ** Still life and a lone cell *)

Lemma square_radius1 : radius1 square.
Proof.
  intros u v u' v' Hu Hv. unfold same_near in *. unfold square.
  destruct (Z.leb_spec 0 u'), (Z.leb_spec 0 u), (Z.leb_spec u' 1),
           (Z.leb_spec u 1), (Z.leb_spec 0 v'), (Z.leb_spec 0 v),
           (Z.leb_spec v' 1), (Z.leb_spec v 1); simpl; try done; lia.
Qed.

Lemma square_far (u v : Z) :
  u < 0 ∨ 1 < u ∨ v < 0 ∨ 1 < v → square u v = false.
Proof.
  intros Hfar. unfold square.
  destruct (Z.leb_spec 0 u), (Z.leb_spec u 1), (Z.leb_spec 0 v),
           (Z.leb_spec v 1); simpl; try done; lia.
Qed.

(** The rule leaves the block as it is, offset by offset. *)
Lemma square_rule (u v : Z) :
  next_state (Z.b2z (square u v)) (ring_sum square u v) = Z.b2z (square u v).
Proof.
  unfold ring_sum.
  assert (Hv : v ≤ -3 ∨ 3 ≤ v ∨ v = -2 ∨ v = -1 ∨ v = 0 ∨ v = 1 ∨ v = 2) by lia.
  assert (Hu : u ≤ -3 ∨ 3 ≤ u ∨ u = -2 ∨ u = -1 ∨ u = 0 ∨ u = 1 ∨ u = 2) by lia.
  destruct Hv as [Hv|[Hv|Hv]].
  1, 2: rewrite !square_far by lia; reflexivity.
  destruct Hu as [Hu|[Hu|Hu]].
  1, 2: rewrite !square_far by lia; reflexivity.
  destruct Hv as [->|[->|[->|[->| ->]]]];
    destruct Hu as [->|[->|[->|[->| ->]]]]; reflexivity.
Qed.

Lemma origin_radius1 : radius1 origin.
Proof.
  intros u v u' v' Hu Hv. unfold same_near in *. unfold origin.
  destruct (Z.eqb_spec u' 0), (Z.eqb_spec u 0),
           (Z.eqb_spec v' 0), (Z.eqb_spec v 0); simpl; try done; lia.
Qed.

Lemma origin_far (u v : Z) : u ≠ 0 ∨ v ≠ 0 → origin u v = false.
Proof.
  intros Hfar. unfold origin.
  destruct (Z.eqb_spec u 0), (Z.eqb_spec v 0); simpl; try done; lia.
Qed.

(** The rule leaves nothing of a single cell. *)
Lemma origin_rule (u v : Z) :
  next_state (Z.b2z (origin u v)) (ring_sum origin u v) = Z.b2z (nowhere u v).
Proof.
  unfold ring_sum, nowhere.
  assert (Hv : v ≤ -2 ∨ 2 ≤ v ∨ v = -1 ∨ v = 0 ∨ v = 1) by lia.
  assert (Hu : u ≤ -2 ∨ 2 ≤ u ∨ u = -1 ∨ u = 0 ∨ u = 1) by lia.
  destruct Hv as [Hv|[Hv|Hv]].
  1, 2: rewrite !origin_far by lia; reflexivity.
  destruct Hu as [Hu|[Hu|Hu]].
  1, 2: rewrite !origin_far by lia; reflexivity.
  destruct Hv as [->|[->| ->]]; destruct Hu as [->|[->| ->]]; reflexivity.
Qed.

Section StillLife.

Variables W H : Z.
Variable BLACK : Color.
Variables cx cy : Z.
Hypothesis cx_inner : 2 ≤ cx ≤ W - 3.
Hypothesis cy_inner : 2 ≤ cy ≤ H - 3.

Lemma block_at_pattern : block_at W H cx cy = pattern_grid W H cx cy square.
Proof.
  apply grid_of_pattern. intros x y. unfold square.
  rewrite !elem_of_cons, elem_of_nil, !andb_true_iff, !Z.leb_le.
  split.
  - intros [E|[E|[E|[E|[]]]]]; injection E; lia.
  - intros [[[Hx0 Hx1] Hy0] Hy1].
    assert (x = cx ∨ x = cx + 1) as [->| ->] by lia;
      assert (y = cy ∨ y = cy + 1) as [->| ->] by lia; auto 6.
Qed.

Lemma lone_at_pattern : lone_at W H cx cy = pattern_grid W H cx cy origin.
Proof.
  apply grid_of_pattern. intros x y. unfold origin.
  rewrite !elem_of_cons, elem_of_nil, !andb_true_iff, !Z.eqb_eq.
  split.
  - intros [E|[]]; injection E; lia.
  - intros [Hx Hy]. left. f_equal; lia.
Qed.

Lemma nowhere_pattern : pattern_grid W H cx cy nowhere = uniform_grid W H 0.
Proof.
  unfold pattern_grid, nowhere, uniform_grid. symmetry.
  apply (tabulate_eq W H ltac:(lia) ltac:(lia)); [apply length_replicate|].
  intros i Hi. unfold GRID_SIZE. by rewrite lookup_replicate_2 by lia.
Qed.

(** X14.  Still life: with the block [(cx, cy)], [(cx+1, cy)],
    [(cx, cy+1)], [(cx+1, cy+1)] at least two cells away from every edge
    and all other cells dead, any number of steps returns a state with the
    same current generation. *)
Theorem block_is_still_life (s : Sim) (n : nat) :
  sized W H s → currentGen s = block_at W H cx cy →
  ∃ s', steps W H BLACK n s = Some s' ∧ currentGen s' = block_at W H cx cy.
Proof.
  assert (HW : 0 < W) by lia. assert (HH : 0 < H) by lia.
  revert s. induction n as [|n IH]; intros s Hs Hcur; simpl.
  - by exists s.
  - rewrite UpdateGameOfLife_after_step by done. simpl.
    apply IH; [apply sized_after_step|]. simpl.
    rewrite Hcur, block_at_pattern.
    apply next_grid_pattern; try done;
      [apply square_radius1 | apply square_rule].
Qed.

(** X15.  Underpopulation: with a single live cell at least two cells away
    from every edge, one step returns the all-dead grid. *)
Theorem lone_cell_dies (s : Sim) :
  sized W H s → currentGen s = lone_at W H cx cy →
  ∃ s', UpdateGameOfLife W H BLACK s = Some s' ∧
        currentGen s' = uniform_grid W H 0.
Proof.
  assert (HW : 0 < W) by lia. assert (HH : 0 < H) by lia.
  intros Hs Hcur. eexists.
  split; [by apply UpdateGameOfLife_after_step|]. simpl.
  rewrite Hcur, lone_at_pattern, <- nowhere_pattern.
  apply next_grid_pattern; try done;
    [apply origin_radius1 | apply origin_rule].
Qed.

End StillLife.

(** ** The further properties at concrete inputs *)

Lemma step_is_local_witness :
  sized 4 3 Demo.state ∧ sized 4 3 Cases.far_change ∧
  (∀ i, i ∈ indices_used 4 3 1 1 →
        currentGen Demo.state !! Z.to_nat i
        = currentGen Cases.far_change !! Z.to_nat i) ∧
  ∃ t1 t2,
    UpdateGameOfLife 4 3 Src.BLACK Demo.state = Some t1 ∧
    UpdateGameOfLife 4 3 Src.BLACK Cases.far_change = Some t2 ∧
    currentGen t1 !! Z.to_nat (1 * 4 + 1) = currentGen t2 !! Z.to_nat (1 * 4 + 1) ∧
    pixels t1 !! Z.to_nat (1 * 4 + 1) = pixels t2 !! Z.to_nat (1 * 4 + 1).
Proof.
  assert (Hsame : ∀ i, i ∈ indices_used 4 3 1 1 →
            currentGen Demo.state !! Z.to_nat i
            = currentGen Cases.far_change !! Z.to_nat i).
  { intros i Hi. vm_compute in Hi.
    repeat (apply elem_of_cons in Hi as [->|Hi]; [reflexivity|]).
    by apply elem_of_nil in Hi. }
  split; [repeat split|]. split; [repeat split|]. split; [exact Hsame|].
  apply (step_is_local 4 3 Src.BLACK);
    [lia|lia|repeat split|repeat split|lia|lia|exact Hsame].
Defined.

Lemma step_normalises_witness :
  sized 4 3 Cases.bytes ∧
  ∃ s', UpdateGameOfLife 4 3 Src.BLACK Cases.bytes = Some s' ∧
        binary (currentGen s') ∧
        nextGen s' = currentGen s' ∧
        Forall (λ p, p = CYAN ∨ p = Src.BLACK) (pixels s').
Proof.
  split; [repeat split|].
  apply (step_normalises 4 3 Src.BLACK); [lia|lia|repeat split].
Defined.

Lemma dead_grid_stays_dead_witness :
  sized 4 3 (Cases.uniform 0) ∧
  currentGen (Cases.uniform 0) = uniform_grid 4 3 0 ∧
  ∃ s', steps 4 3 Src.BLACK 3 (Cases.uniform 0) = Some s' ∧
        currentGen s' = uniform_grid 4 3 0 ∧
        pixels s' = replicate (Z.to_nat (GRID_SIZE 4 3)) Src.BLACK.
Proof.
  split; [repeat split|]. split; [reflexivity|].
  apply (dead_grid_stays_dead 4 3 Src.BLACK);
    [lia|lia|repeat split|reflexivity].
Defined.

Lemma full_grid_dies_witness :
  sized 4 3 (Cases.uniform 1) ∧
  currentGen (Cases.uniform 1) = uniform_grid 4 3 1 ∧
  ∃ s', UpdateGameOfLife 4 3 Src.BLACK (Cases.uniform 1) = Some s' ∧
        currentGen s' = uniform_grid 4 3 0 ∧
        ∀ x y, 0 ≤ x < 4 → 0 ≤ y < 3 →
               neighbors_at 4 3 (currentGen (Cases.uniform 1)) x y = Some 8.
Proof.
  split; [repeat split|]. split; [reflexivity|].
  apply (full_grid_dies 4 3 Src.BLACK); [lia|lia|repeat split|reflexivity].
Defined.

Lemma run_cells_binary_counts_bounded_witness :
  let s := after_startup 4 3 Src.BLACK Demo.draw in
  reachable 4 3 Src.BLACK s ∧
  binary (currentGen s) ∧
  ∀ x y, 0 ≤ x < 4 → 0 ≤ y < 3 →
    ∃ n, neighbors_at 4 3 (currentGen s) x y = Some n ∧ 0 ≤ n ≤ 8.
Proof.
  intros s.
  assert (Hs : reachable 4 3 Src.BLACK s).
  { apply (reach_startup 4 3 Src.BLACK Demo.draw). reflexivity. }
  split; [exact Hs|].
  apply (run_cells_binary_counts_bounded 4 3 Src.BLACK); [lia|lia|exact Hs].
Defined.

Lemma seeding_threshold_witness :
  0 < Src.GRID_WIDTH ∧ 0 < Src.GRID_HEIGHT ∧
  ∃ s, Src.startup Demo.draw = Some s ∧
       nextGen s = uniform_grid Src.GRID_WIDTH Src.GRID_HEIGHT 0 ∧
       ∀ i, 0 ≤ i < Src.GRID_WIDTH * Src.GRID_HEIGHT →
         ∃ c, currentGen s !! Z.to_nat i = Some c ∧
              (85 < Demo.draw i → c = 1) ∧ (Demo.draw i ≤ 85 → c = 0).
Proof.
  split; [reflexivity|]. split; [reflexivity|].
  apply (seeding_threshold Src.GRID_WIDTH Src.GRID_HEIGHT Src.BLACK);
    reflexivity.
Defined.

Lemma no_signed_overflow_witness :
  0 < 4 ≤ 2 ^ 30 ∧ 0 < 3 ≤ 2 ^ 30 ∧ 4 * 3 < 2 ^ 31 ∧
  length (currentGen Cases.bytes) = Z.to_nat (GRID_SIZE 4 3) ∧
  Forall is_byte (currentGen Cases.bytes) ∧
  Forall in_int (int_values 4 3 3 2)
  ∧ ∃ n, neighbors_at 4 3 (currentGen Cases.bytes) 3 2 = Some n
         ∧ 0 ≤ n ≤ 2040.
Proof.
  assert (Hbytes : Forall is_byte (currentGen Cases.bytes)).
  { unfold is_byte. simpl. repeat constructor; lia. }
  split; [lia|]. split; [lia|]. split; [lia|]. split; [reflexivity|].
  split; [exact Hbytes|].
  apply (no_signed_overflow 4 3 (currentGen Cases.bytes) 3 2);
    [lia|lia|lia|reflexivity|exact Hbytes|lia|lia].
Defined.

Lemma step_commutes_with_mirrors_witness :
  sized 4 3 Demo.state ∧ sized 4 3 Cases.mirrored_x ∧
  sized 4 3 Cases.mirrored_y ∧
  currentGen Cases.mirrored_x = mirror_x 4 3 (currentGen Demo.state) ∧
  currentGen Cases.mirrored_y = mirror_y 4 3 (currentGen Demo.state) ∧
  ∃ s' sx' sy',
    UpdateGameOfLife 4 3 Src.BLACK Demo.state = Some s' ∧
    UpdateGameOfLife 4 3 Src.BLACK Cases.mirrored_x = Some sx' ∧
    UpdateGameOfLife 4 3 Src.BLACK Cases.mirrored_y = Some sy' ∧
    currentGen sx' = mirror_x 4 3 (currentGen s') ∧
    currentGen sy' = mirror_y 4 3 (currentGen s').
Proof.
  split; [repeat split|]. split; [repeat split|]. split; [repeat split|].
  split; [reflexivity|]. split; [reflexivity|].
  apply (step_commutes_with_mirrors 4 3 Src.BLACK);
    [lia|lia|repeat split|repeat split|repeat split|reflexivity|reflexivity].
Defined.

Lemma block_is_still_life_witness :
  2 ≤ 4 ≤ 10 - 3 ∧ sized 10 10 Cases.block ∧
  currentGen Cases.block = block_at 10 10 4 4 ∧
  ∃ s', steps 10 10 Src.BLACK 5 Cases.block = Some s'
        ∧ currentGen s' = block_at 10 10 4 4.
Proof.
  split; [lia|]. split; [repeat split|]. split; [reflexivity|].
  apply (block_is_still_life 10 10 Src.BLACK 4 4);
    [lia|lia|repeat split|reflexivity].
Defined.

Lemma lone_cell_dies_witness :
  2 ≤ 5 ≤ 10 - 3 ∧ sized 10 10 Cases.lone ∧
  currentGen Cases.lone = lone_at 10 10 5 5 ∧
  ∃ s', UpdateGameOfLife 10 10 Src.BLACK Cases.lone = Some s'
        ∧ currentGen s' = uniform_grid 10 10 0.
Proof.
  split; [lia|]. split; [repeat split|]. split; [reflexivity|].
  apply (lone_cell_dies 10 10 Src.BLACK 5 5);
    [lia|lia|repeat split|reflexivity].
Defined.

(** The mirror images and the bytes, run through the loops. *)
Example mirrors_and_bytes_run :
  mirror_x 4 3 Demo.cells = [0; 0; 1; 0;
                             0; 1; 1; 0;
                             1; 0; 0; 0]
  ∧ mirror_y 4 3 Demo.cells = [0; 0; 0; 1;
                               0; 1; 1; 0;
                               0; 1; 0; 0]
  ∧ (s ← UpdateGameOfLife 4 3 Src.BLACK Cases.mirrored_x; Some (currentGen s))
    = Some [0; 0; 1; 1;
            0; 1; 1; 1;
            0; 0; 1; 1]
  ∧ neighbors_at 4 3 (currentGen Cases.bytes) 0 0 = Some 11.
Proof. repeat split; reflexivity. Qed.
